(** * ipkg/blockchain: consensus engine, miner and chord transport

    A shallow embedding of [transport.go] (the chord based replication
    transport, the consensus loop [Blockchain.Run], the miner
    [Blockchain.GenerateBlocks] and [DiffTransactionSlices]) together with
    the properties the specification states about them.

    Conventions of the embedding:
    - a Go [[]byte] is an [option (list Z)]: [None] is the nil slice,
      [Some l] a non-nil slice holding the bytes [l].  [reflect.DeepEqual]
      on two byte slices is then plain equality of these values (a nil
      slice and an empty non-nil slice are not deeply equal);
    - a Go slice of structs is a [list];
    - a pointer that may be nil is an [option]; dereferencing [None] is a
      run-time panic, which the embedding renders as the result [None];
    - channels are rendered by the sequence of values sent on them;
    - functions of the package whose source is not part of the two files
      are parameters of the sections below, or are modelled from the
      specification where a doc comment says so. *)

From Stdlib Require Import ZArith Lia.
From stdpp Require Import base option list gmap strings sorting.

Local Open Scope Z_scope.
Local Open Scope nat_scope.

(** ** Byte slices and deep equality *)

Definition bytes : Type := option (list Z).

(** [reflect.DeepEqual] at type [[]byte]. *)
Definition DeepEqual (x y : bytes) : bool := bool_decide (x = y).

(** ** Transactions *)

(** The fields are those of the data model (the struct declaration is not
    in the two source files); [DiffTransactionSlices] reads [Signature]
    only. *)
Record Transaction : Type := mkTransaction {
  From_ : bytes;
  To : bytes;
  TxTimestamp : Z;
  PayloadHash : bytes;
  PayloadLength : Z;
  TxNonce : Z;
  Signature : bytes;
  Payload : bytes
}.

#[global] Instance Transaction_eq_dec : EqDecision Transaction.
Proof. solve_decision. Defined.

Definition TransactionSlice : Type := list Transaction.

(** ** DiffTransactionSlices *)

Module Diff.

(** The inner loop [for j := lastj; j < len(b); j++]: [n] counts the
    iterations that are left, [len(b) - j].  The result is the [j] at
    which the loop breaks with [found = true], or [None] when it runs to
    the end of [b]. *)
Fixpoint scan_from (b : TransactionSlice) (t : Transaction) (j n : nat)
  : option nat :=
  match n with
  | O => None
  | S n' =>
      match b !! j with
      | Some bj =>
          if DeepEqual (Signature bj) (Signature t) then Some j
          else scan_from b t (S j) n'
      | None => None
      end
  end.

Definition find_match (b : TransactionSlice) (t : Transaction) (lastj : nat)
  : option nat :=
  scan_from b t lastj (length b - lastj).

(** The state of the outer loop: the cursor [lastj] and the slice [diff]
    built so far. *)
Definition loop_state : Type := (nat * TransactionSlice)%type.

(** One iteration of [for _, t := range a]. *)
Definition diff_step (b : TransactionSlice) (st : loop_state) (t : Transaction)
  : loop_state :=
  match find_match b t st.1 with
  | Some j => (j, st.2)
  | None => (st.1, st.2 ++ [t])
  end.

Definition diff_loop (a b : TransactionSlice) : loop_state :=
  fold_left (diff_step b) a (0, []).

End Diff.

Definition DiffTransactionSlices (a b : TransactionSlice) : TransactionSlice :=
  (Diff.diff_loop a b).2.

(** The cursor [lastj] after the transactions [a] have been scanned. *)
Definition cursor_after (a b : TransactionSlice) : nat :=
  (Diff.diff_loop a b).1.

(** *** The algorithm as the specification words it

    The same loop, except that on a match the cursor moves past the
    matched position.  It is used only to compare with the code. *)
Module DiffSpec.

Definition diff_step (b : TransactionSlice) (st : Diff.loop_state)
  (t : Transaction) : Diff.loop_state :=
  match Diff.find_match b t st.1 with
  | Some j => (S j, st.2)
  | None => (st.1, st.2 ++ [t])
  end.

Definition diff_loop (a b : TransactionSlice) : Diff.loop_state :=
  fold_left (diff_step b) a (0, []).

Definition DiffTransactionSlices_spec (a b : TransactionSlice)
  : TransactionSlice :=
  (diff_loop a b).2.

End DiffSpec.

(** The two cursors stay related: equal, or the specification's cursor is
    one past a position of [b] whose signature was seen before. *)
Definition cursors_related (b : TransactionSlice) (seen : list bytes)
  (c c' : nat) : Prop :=
  c' = c \/ (c' = S c /\ exists bc, b !! c = Some bc /\ Signature bc ∈ seen).

(** *** Ordering by signature

    Signatures are compared as byte strings, lexicographically (a nil
    signature counts as the empty string). *)
Fixpoint bytes_leb (x y : list Z) : bool :=
  match x, y with
  | [], _ => true
  | _ :: _, [] => false
  | c :: x', d :: y' => (c <? d)%Z || ((c =? d)%Z && bytes_leb x' y')
  end.

Definition sig_leb (s1 s2 : bytes) : bool :=
  bytes_leb (default [] s1) (default [] s2).

Fixpoint sorted_by_signature (a : TransactionSlice) : bool :=
  match a with
  | [] => true
  | t :: a' =>
      match a' with
      | [] => true
      | u :: _ => sig_leb (Signature t) (Signature u) && sorted_by_signature a'
      end
  end.

(** Two sequences share the same relative ordering by signature when both
    are ascending by signature. *)
Definition same_signature_order (a b : TransactionSlice) : Prop :=
  sorted_by_signature a = true /\ sorted_by_signature b = true.

(** The reading of the cursor rule in the specification: whenever the
    transaction following the prefix [pre] of [a] is matched at position
    [j] of [b], the cursor is [S j] afterwards. *)
Definition cursor_moves_past_match (a b : TransactionSlice) : Prop :=
  forall pre t post j,
    a = pre ++ t :: post ->
    Diff.find_match b t (cursor_after pre b) = Some j ->
    cursor_after (pre ++ [t]) b = S j.

(** * Properties of [DiffTransactionSlices] *)

Lemma DeepEqual_true x y : DeepEqual x y = true <-> x = y.
Proof. unfold DeepEqual. apply bool_decide_eq_true. Qed.

Lemma DeepEqual_false x y : DeepEqual x y = false <-> x <> y.
Proof. unfold DeepEqual. apply bool_decide_eq_false. Qed.

Lemma DeepEqual_refl x : DeepEqual x x = true.
Proof. by apply DeepEqual_true. Qed.

(** ** Facts about the scan *)

Section ScanFacts.
Context (b : TransactionSlice) (t : Transaction).

Lemma scan_from_Some j n k :
  Diff.scan_from b t j n = Some k ->
  j <= k < j + n /\
  (exists bk, b !! k = Some bk /\ Signature bk = Signature t) /\
  (forall i bi, j <= i < k -> b !! i = Some bi ->
                Signature bi <> Signature t).
Proof.
  revert j. induction n as [|n IH]; intros j; simpl; [done|].
  destruct (b !! j) as [bj|] eqn:Hj; [|done].
  destruct (DeepEqual (Signature bj) (Signature t)) eqn:He.
  - intros [= <-]. apply DeepEqual_true in He.
    split; [lia|]. split; [eauto|]. intros i bi Hi. lia.
  - intros Hk. apply IH in Hk as (Hr & Hm & Hn).
    apply DeepEqual_false in He.
    split; [lia|]. split; [done|].
    intros i bi Hi Hbi. destruct (decide (i = j)) as [->|Hne].
    + congruence.
    + apply (Hn i bi); [lia|done].
Qed.

Lemma scan_from_None j n :
  Diff.scan_from b t j n = None ->
  forall i bi, j <= i < j + n -> b !! i = Some bi ->
               Signature bi <> Signature t.
Proof.
  revert j. induction n as [|n IH]; intros j; simpl; [intros; lia|].
  destruct (b !! j) as [bj|] eqn:Hj.
  - destruct (DeepEqual (Signature bj) (Signature t)) eqn:He; [done|].
    intros Hk i bi Hi Hbi. apply DeepEqual_false in He.
    destruct (decide (i = j)) as [->|Hne]; [congruence|].
    apply (IH (S j) Hk i bi); [lia|done].
  - intros _ i bi Hi Hbi.
    apply lookup_ge_None in Hj. apply lookup_lt_Some in Hbi. lia.
Qed.

Lemma find_match_Some lastj k :
  Diff.find_match b t lastj = Some k ->
  lastj <= k < length b /\
  (exists bk, b !! k = Some bk /\ Signature bk = Signature t) /\
  (forall i bi, lastj <= i < k -> b !! i = Some bi ->
                Signature bi <> Signature t).
Proof.
  unfold Diff.find_match. intros H.
  apply scan_from_Some in H as (Hr & Hm & Hn).
  split; [lia|]. done.
Qed.

Lemma find_match_None lastj :
  Diff.find_match b t lastj = None ->
  forall i bi, lastj <= i -> b !! i = Some bi ->
               Signature bi <> Signature t.
Proof.
  unfold Diff.find_match. intros H i bi Hi Hbi.
  apply (scan_from_None _ _ H i bi); [|done].
  apply lookup_lt_Some in Hbi. lia.
Qed.

(** A matching entry at or after the cursor makes the scan succeed, at
    or before that entry. *)
Lemma find_match_hit lastj i bi :
  lastj <= i -> b !! i = Some bi -> Signature bi = Signature t ->
  exists k, Diff.find_match b t lastj = Some k /\ lastj <= k <= i.
Proof.
  intros Hi Hbi Hs.
  destruct (Diff.find_match b t lastj) as [k|] eqn:Hf.
  - exists k. split; [done|].
    apply find_match_Some in Hf as (Hr & _ & Hn).
    split; [lia|]. destruct (decide (k <= i)); [done|].
    exfalso. apply (Hn i bi); [lia|done..].
  - exfalso. by apply (find_match_None _ Hf i bi).
Qed.
End ScanFacts.


(** ** The outer loop *)

Lemma diff_loop_snoc pre t b :
  Diff.diff_loop (pre ++ [t]) b = Diff.diff_step b (Diff.diff_loop pre b) t.
Proof. unfold Diff.diff_loop. by rewrite fold_left_app. Qed.

(** What one iteration does to the cursor and to the diff. *)
Lemma diff_step_cases b st t :
  st.1 <= (Diff.diff_step b st t).1 /\
  ((exists j bj,
       st.1 <= j < length b /\ b !! j = Some bj /\
       Signature bj = Signature t /\
       (forall i bi, st.1 <= i < j -> b !! i = Some bi ->
                     Signature bi <> Signature t) /\
       (Diff.diff_step b st t).1 = j /\
       (Diff.diff_step b st t).2 = st.2)
   \/
   ((forall i bi, st.1 <= i -> b !! i = Some bi ->
                  Signature bi <> Signature t) /\
    (Diff.diff_step b st t).1 = st.1 /\
    (Diff.diff_step b st t).2 = st.2 ++ [t])).
Proof.
  unfold Diff.diff_step.
  destruct (Diff.find_match b t st.1) as [j|] eqn:Hf; simpl.
  - apply find_match_Some in Hf as (Hr & (bj & Hbj & Hs) & Hn).
    split; [lia|]. left. exists j, bj. repeat split; try done; lia.
  - split; [lia|]. right. split; [|done].
    by apply find_match_None.
Qed.

(** The cursor never moves backwards along the scan of [a]. *)
Lemma cursor_after_mono pre post b :
  cursor_after pre b <= cursor_after (pre ++ post) b.
Proof.
  induction post as [|t post IH] using rev_ind.
  - by rewrite app_nil_r.
  - rewrite app_assoc. unfold cursor_after in *. rewrite diff_loop_snoc.
    pose proof (diff_step_cases b (Diff.diff_loop (pre ++ post) b) t) as [H _].
    lia.
Qed.

(** The diff only grows, by transactions taken from [a] in order. *)
Lemma diff_fold_sublist b a st :
  exists extra,
    (fold_left (Diff.diff_step b) a st).2 = st.2 ++ extra /\
    extra `sublist_of` a.
Proof.
  revert st. induction a as [|t a IH]; intros st; simpl.
  - exists []. split; [by rewrite app_nil_r|constructor].
  - destruct (IH (Diff.diff_step b st t)) as (extra & He & Hs).
    unfold Diff.diff_step in *.
    destruct (Diff.find_match b t st.1) as [j|]; simpl in *.
    + exists extra. split; [done|]. by apply sublist_cons.
    + exists (t :: extra). split.
      * rewrite He. by rewrite <- app_assoc.
      * by apply sublist_skip.
Qed.

(** Scanning the tail of a sequence against the sequence itself emits
    nothing, as long as the cursor is not ahead of the scan. *)
Lemma diff_fold_self suf :
  forall pre lastj d,
    lastj <= length pre ->
    (fold_left (Diff.diff_step (pre ++ suf)) suf (lastj, d)).2 = d.
Proof.
  induction suf as [|t suf IH]; intros pre lastj d Hle; simpl; [done|].
  assert (Hat : (pre ++ t :: suf) !! length pre = Some t).
  { rewrite lookup_app_r by lia. by rewrite Nat.sub_diag. }
  destruct (find_match_hit (pre ++ t :: suf) t lastj (length pre) t Hle Hat eq_refl)
    as (k & Hk & Hr).
  unfold Diff.diff_step at 2. simpl. rewrite Hk.
  replace (pre ++ t :: suf) with ((pre ++ [t]) ++ suf)
    by (by rewrite <- app_assoc).
  apply IH. rewrite length_app. simpl. lia.
Qed.

Lemma DiffTransactionSlices_self a : DiffTransactionSlices a a = [].
Proof.
  unfold DiffTransactionSlices, Diff.diff_loop.
  apply (diff_fold_self a [] 0 []). simpl. lia.
Qed.

(** ** The code against the algorithm as the specification words it *)

(** An entry of [b] that does not match can be skipped by the scan. *)
Lemma find_match_skip b t c bc :
  b !! c = Some bc -> Signature bc <> Signature t ->
  Diff.find_match b t c = Diff.find_match b t (S c).
Proof.
  intros Hc Hne. unfold Diff.find_match.
  pose proof (lookup_lt_Some _ _ _ Hc) as Hlt.
  replace (length b - c) with (S (length b - S c)) by lia.
  simpl. rewrite Hc.
  apply DeepEqual_false in Hne. by rewrite Hne.
Qed.

Lemma diff_fold_refines b a :
  forall seen c c' d,
    cursors_related b seen c c' ->
    NoDup (Signature <$> a) ->
    (forall t, t ∈ a -> Signature t ∉ seen) ->
    (fold_left (Diff.diff_step b) a (c, d)).2 =
    (fold_left (DiffSpec.diff_step b) a (c', d)).2.
Proof.
  induction a as [|t a IH]; intros seen c c' d Hrel Hnd Hfresh; simpl; [done|].
  rewrite fmap_cons in Hnd. apply NoDup_cons in Hnd as [Hnin Hnd].
  assert (Hfm : Diff.find_match b t c' = Diff.find_match b t c).
  { destruct Hrel as [->|[-> (bc & Hbc & Hseen)]]; [done|].
    symmetry. apply (find_match_skip b t c bc Hbc).
    intros Heq. apply (Hfresh t); [by left|]. by rewrite <- Heq. }
  unfold Diff.diff_step at 2, DiffSpec.diff_step at 2. simpl. rewrite Hfm.
  destruct (Diff.find_match b t c) as [j|] eqn:Hj.
  - apply find_match_Some in Hj as (_ & (bj & Hbj & Hs) & _).
    apply (IH (Signature t :: seen)); [|done|].
    + right. split; [done|]. exists bj. split; [done|]. rewrite Hs. by left.
    + intros u Hu [Heq|Hin]%elem_of_cons.
      * apply Hnin. rewrite <- Heq. by apply list_elem_of_fmap_2.
      * apply (Hfresh u); [by right|done].
  - apply (IH (Signature t :: seen)); [|done|].
    + destruct Hrel as [->|[-> (bc & Hbc & Hseen)]]; [by left|].
      right. split; [done|]. exists bc. split; [done|]. by right.
    + intros u Hu [Heq|Hin]%elem_of_cons.
      * apply Hnin. rewrite <- Heq. by apply list_elem_of_fmap_2.
      * apply (Hfresh u); [by right|done].
Qed.

(** When no two transactions of [a] carry the same signature, the code
    and the specification's wording emit the same diff. *)
Lemma DiffTransactionSlices_refines a b :
  NoDup (Signature <$> a) ->
  DiffTransactionSlices a b = DiffSpec.DiffTransactionSlices_spec a b.
Proof.
  intros Hnd. unfold DiffTransactionSlices, DiffSpec.DiffTransactionSlices_spec.
  unfold Diff.diff_loop, DiffSpec.diff_loop.
  apply (diff_fold_refines b a [] 0 0 []); [by left|done|].
  intros t _ Hin. by apply elem_of_nil in Hin.
Qed.

(** ** Sample transactions *)

Definition tx_of_sig (s : list Z) : Transaction :=
  mkTransaction None None 0 None 0 0 (Some s) None.

Definition tx1 : Transaction := tx_of_sig [1%Z].
Definition tx2 : Transaction := tx_of_sig [2%Z].
Definition tx3 : Transaction := tx_of_sig [3%Z].

Example diff_sample_1 :
  DiffTransactionSlices [tx1; tx2; tx3] [tx1; tx3] = [tx2].
Proof. reflexivity. Qed.

Example diff_sample_2 :
  DiffTransactionSlices [tx1; tx2; tx3] [tx3; tx1] = [tx2; tx3].
Proof. reflexivity. Qed.

Example diff_sample_3 :
  DiffTransactionSlices [tx1; tx1] [tx1] = [] /\
  DiffSpec.DiffTransactionSlices_spec [tx1; tx1] [tx1] = [tx1].
Proof. split; reflexivity. Qed.

(** ** What the specification states about [DiffTransactionSlices] *)

(** C2, as the specification states it, fails: on a match the loop
    assigns [lastj = j], so the cursor stops at the matched position and
    not past it.  Scanning [a = [tx1; tx2]] against [b = [tx1; tx2]] (both
    ascending by signature), [tx1] is matched at position 0 and the cursor
    is 0 afterwards, not 1. *)
Lemma C2_cursor_stays_at_match :
  same_signature_order [tx1; tx2] [tx1; tx2] /\
  Diff.find_match [tx1; tx2] tx1 (cursor_after [] [tx1; tx2]) = Some 0 /\
  cursor_after ([] ++ [tx1]) [tx1; tx2] = 0 /\
  ~ cursor_moves_past_match [tx1; tx2] [tx1; tx2].
Proof.
  split; [by split|]. split; [reflexivity|]. split; [reflexivity|].
  intros H. specialize (H [] tx1 [tx2] 0 eq_refl eq_refl). discriminate H.
Qed.

(** C2, amended: for sequences [a] and [b] ascending by signature, the
    loop scans [a] in order with one cursor into [b] that never moves
    backwards.  For the transaction [t] that follows the prefix [pre] of
    [a], [b] is searched from the cursor forward; on the first match, at
    [j], the cursor becomes [j] (the matched position itself) and the diff
    is unchanged; when nothing from the cursor on matches, the cursor
    stays and [t] is appended to the diff. *)
Theorem C2_diff_forward_cursor (a b : TransactionSlice) :
  same_signature_order a b ->
  forall pre t post,
    a = pre ++ t :: post ->
    cursor_after pre b <= cursor_after (pre ++ [t]) b /\
    cursor_after (pre ++ [t]) b <= cursor_after a b /\
    ((exists j bj,
         cursor_after pre b <= j < length b /\
         b !! j = Some bj /\ Signature bj = Signature t /\
         (forall i bi, cursor_after pre b <= i < j -> b !! i = Some bi ->
                       Signature bi <> Signature t) /\
         cursor_after (pre ++ [t]) b = j /\
         DiffTransactionSlices (pre ++ [t]) b = DiffTransactionSlices pre b)
     \/
     ((forall i bi, cursor_after pre b <= i -> b !! i = Some bi ->
                    Signature bi <> Signature t) /\
      cursor_after (pre ++ [t]) b = cursor_after pre b /\
      DiffTransactionSlices (pre ++ [t]) b =
        DiffTransactionSlices pre b ++ [t])).
Proof.
  intros _ pre t post ->.
  split; [apply cursor_after_mono|].
  split.
  { replace (pre ++ t :: post) with ((pre ++ [t]) ++ post)
      by (by rewrite <- app_assoc).
    apply cursor_after_mono. }
  unfold cursor_after, DiffTransactionSlices. rewrite diff_loop_snoc.
  apply diff_step_cases.
Qed.

Lemma C2_diff_forward_cursor_witness :
  cursor_after [tx1] [tx1; tx3] <= cursor_after ([tx1] ++ [tx2]) [tx1; tx3] /\
  cursor_after ([tx1] ++ [tx2]) [tx1; tx3]
    <= cursor_after [tx1; tx2; tx3] [tx1; tx3] /\
  ((exists j bj,
       cursor_after [tx1] [tx1; tx3] <= j < length [tx1; tx3] /\
       [tx1; tx3] !! j = Some bj /\ Signature bj = Signature tx2 /\
       (forall i bi, cursor_after [tx1] [tx1; tx3] <= i < j ->
                     [tx1; tx3] !! i = Some bi ->
                     Signature bi <> Signature tx2) /\
       cursor_after ([tx1] ++ [tx2]) [tx1; tx3] = j /\
       DiffTransactionSlices ([tx1] ++ [tx2]) [tx1; tx3] =
         DiffTransactionSlices [tx1] [tx1; tx3])
   \/
   ((forall i bi, cursor_after [tx1] [tx1; tx3] <= i ->
                  [tx1; tx3] !! i = Some bi ->
                  Signature bi <> Signature tx2) /\
    cursor_after ([tx1] ++ [tx2]) [tx1; tx3] = cursor_after [tx1] [tx1; tx3] /\
    DiffTransactionSlices ([tx1] ++ [tx2]) [tx1; tx3] =
      DiffTransactionSlices [tx1] [tx1; tx3] ++ [tx2])).
Proof.
  apply (C2_diff_forward_cursor [tx1; tx2; tx3] [tx1; tx3]) with (post := [tx3]).
  - split; reflexivity.
  - reflexivity.
Defined.

(** C9: for every transaction sequence [a] that is sorted by signature,
    [DiffTransactionSlices a a] is the empty sequence. *)
Theorem C9_diff_self_empty (a : TransactionSlice) :
  sorted_by_signature a = true ->
  DiffTransactionSlices a a = [].
Proof. intros _. apply DiffTransactionSlices_self. Qed.

Lemma C9_diff_self_empty_witness :
  DiffTransactionSlices [tx1; tx2; tx3] [tx1; tx2; tx3] = [].
Proof. apply (C9_diff_self_empty [tx1; tx2; tx3]). reflexivity. Defined.

(** C10: for all sequences [a] and [b], with no assumption on their
    order, the diff is a subsequence of [a]: every transaction it holds
    is an element of [a], and they come in the order they have in [a]. *)
Theorem C10_diff_subsequence (a b : TransactionSlice) :
  DiffTransactionSlices a b `sublist_of` a /\
  (forall t, t ∈ DiffTransactionSlices a b -> t ∈ a).
Proof.
  assert (Hs : DiffTransactionSlices a b `sublist_of` a).
  { unfold DiffTransactionSlices, Diff.diff_loop.
    destruct (diff_fold_sublist b a (0, [])) as (extra & -> & Hs). done. }
  split; [done|].
  intros t Ht. by eapply elem_of_sublist.
Qed.

(** ** Further properties of [DiffTransactionSlices] *)

(** The signature of [t] occurs nowhere in [b]. *)
Definition absent_from (b : TransactionSlice) (t : Transaction) : Prop :=
  Signature t ∉ Signature <$> b.

#[global] Instance absent_from_dec b t : Decision (absent_from b t).
Proof. unfold absent_from. apply _. Defined.

Lemma DiffTransactionSlices_sublist a b :
  DiffTransactionSlices a b `sublist_of` a.
Proof.
  unfold DiffTransactionSlices, Diff.diff_loop.
  by destruct (diff_fold_sublist b a (0, [])) as (extra & -> & Hs).
Qed.

Lemma find_match_nil t c : Diff.find_match [] t c = None.
Proof. reflexivity. Qed.

Lemma diff_fold_nil a :
  forall c d, (fold_left (Diff.diff_step []) a (c, d)).2 = d ++ a.
Proof.
  induction a as [|t a IH]; intros c d; simpl.
  - by rewrite app_nil_r.
  - unfold Diff.diff_step at 2. simpl. rewrite IH. by rewrite <- app_assoc.
Qed.

(** X3: the edge cases of the diff.  Nothing is emitted for an empty [a];
    against an empty [b] every transaction of [a] is emitted, in order. *)
Theorem diff_empty_inputs (a b : TransactionSlice) :
  DiffTransactionSlices [] b = [] /\ DiffTransactionSlices a [] = a.
Proof.
  split; [reflexivity|].
  unfold DiffTransactionSlices, Diff.diff_loop. by rewrite diff_fold_nil.
Qed.

(** A match means that the signature occurs in [b]. *)
Lemma find_match_Some_present b t c j :
  Diff.find_match b t c = Some j -> ~ absent_from b t.
Proof.
  intros Hf Habs. apply find_match_Some in Hf as (_ & (bk & Hbk & Hs) & _).
  apply Habs. rewrite <- Hs. apply list_elem_of_fmap_2.
  by eapply list_elem_of_lookup_2.
Qed.

Lemma diff_fold_keeps_absent b a :
  forall st,
    exists extra,
      (fold_left (Diff.diff_step b) a st).2 = st.2 ++ extra /\
      filter (absent_from b) a `sublist_of` extra.
Proof.
  induction a as [|t a IH]; intros st; simpl.
  - exists []. split; [by rewrite app_nil_r|constructor].
  - destruct (IH (Diff.diff_step b st t)) as (extra & He & Hs).
    unfold Diff.diff_step in *.
    destruct (Diff.find_match b t st.1) as [j|] eqn:Hf; simpl in *.
    + exists extra. split; [done|].
      rewrite filter_cons_False; [done|].
      by eapply find_match_Some_present.
    + exists (t :: extra). split; [rewrite He; by rewrite <- app_assoc|].
      rewrite filter_cons. destruct (decide (absent_from b t)).
      * by apply sublist_skip.
      * by apply sublist_cons.
Qed.

(** X1: the diff never misses a transaction that is absent from [b]:
    whatever the order of [a] and [b], the transactions of [a] whose
    signature occurs nowhere in [b] are all emitted, in the order of [a]
    (when the orders diverge the diff can only hold more). *)
Theorem diff_keeps_absent (a b : TransactionSlice) :
  filter (absent_from b) a `sublist_of` DiffTransactionSlices a b /\
  (forall t, t ∈ a -> absent_from b t -> t ∈ DiffTransactionSlices a b).
Proof.
  assert (Hs : filter (absent_from b) a `sublist_of` DiffTransactionSlices a b).
  { unfold DiffTransactionSlices, Diff.diff_loop.
    destruct (diff_fold_keeps_absent b a (0, [])) as (extra & -> & Hs). done. }
  split; [done|].
  intros t Hin Habs. eapply elem_of_sublist; [|exact Hs].
  apply list_elem_of_filter. by split.
Qed.

(** *** Exactness on inputs in the same order *)

Lemma sublist_cons_not_in {A} (x : A) (l1 l2 : list A) :
  l1 `sublist_of` x :: l2 -> x ∉ l1 -> l1 `sublist_of` l2.
Proof.
  intros Hs Hx. inversion Hs as [|y k1 k2 Hk|y k1 k2 Hk]; subst.
  - exfalso. apply Hx. by left.
  - done.
Qed.

Lemma sublist_cons_in {A} (x : A) (l1 l2 : list A) :
  l1 `sublist_of` x :: l2 -> x ∉ l2 -> x ∈ l1 ->
  exists k, l1 = x :: k /\ k `sublist_of` l2.
Proof.
  intros Hs Hx Hin. inversion Hs as [|y k1 k2 Hk|y k1 k2 Hk]; subst.
  - by exists k1.
  - exfalso. apply Hx. by eapply elem_of_sublist.
Qed.

Lemma diffspec_fold_exact b a :
  forall k d,
    NoDup (Signature <$> a) ->
    (Signature <$> drop k b) `sublist_of` (Signature <$> a) ->
    (forall i bi, i < k -> b !! i = Some bi ->
                  Signature bi ∉ Signature <$> a) ->
    (fold_left (DiffSpec.diff_step b) a (k, d)).2
    = d ++ filter (absent_from b) a.
Proof.
  induction a as [|t a IH]; intros k d Hnd Hsub Hbefore; simpl.
  - by rewrite app_nil_r.
  - rewrite fmap_cons in Hnd, Hsub. apply NoDup_cons in Hnd as [Hnin Hnd].
    unfold DiffSpec.diff_step at 2. simpl.
    destruct (decide (Signature t ∈ Signature <$> drop k b)) as [Hin|Hnot].
    + destruct (sublist_cons_in _ _ _ Hsub Hnin Hin) as (rest & Hrest & Hsub').
      destruct (drop k b) as [|bk tl] eqn:Hdrop; [done|].
      rewrite fmap_cons in Hrest. injection Hrest as Hsig Htl.
      assert (Hbk : b !! k = Some bk).
      { rewrite <- (Nat.add_0_r k), <- lookup_drop. by rewrite Hdrop. }
      destruct (find_match_hit b t k k bk (le_n k) Hbk Hsig) as (j & Hj & Hjk).
      assert (j = k) as -> by lia.
      rewrite Hj.
      rewrite filter_cons_False.
      2: { intros Habs. apply Habs. rewrite <- Hsig.
           apply list_elem_of_fmap_2. by eapply list_elem_of_lookup_2. }
      apply IH; [done| |].
      * replace (drop (S k) b) with (drop 1 (drop k b))
          by (rewrite drop_drop; f_equal; lia).
        rewrite Hdrop. simpl. rewrite drop_0. by rewrite Htl.
      * intros i bi Hi Hbi. destruct (decide (i = k)) as [->|Hne].
        -- rewrite Hbk in Hbi. injection Hbi as <-. by rewrite Hsig.
        -- intros Hin'. apply (Hbefore i bi); [lia|done|].
           rewrite fmap_cons. by right.
    + assert (Hf : Diff.find_match b t k = None).
      { destruct (Diff.find_match b t k) as [j|] eqn:Hf; [|done].
        exfalso. apply Hnot.
        apply find_match_Some in Hf as (Hr & (bj & Hbj & Hs) & _).
        rewrite <- Hs. apply list_elem_of_fmap_2.
        apply list_elem_of_lookup. exists (j - k).
        rewrite lookup_drop. by replace (k + (j - k)) with j by lia. }
      rewrite Hf.
      assert (Habs : absent_from b t).
      { unfold absent_from. rewrite <- (take_drop k b), fmap_app.
        intros [Hl|Hr]%elem_of_app; [|done].
        apply list_elem_of_fmap in Hl as (bi & Hs & Hbi).
        apply list_elem_of_lookup in Hbi as (i & Hi).
        pose proof (lookup_lt_Some _ _ _ Hi) as Hlt.
        rewrite length_take in Hlt.
        rewrite lookup_take_lt in Hi by lia.
        apply (Hbefore i bi); [lia|done|].
        rewrite fmap_cons, <- Hs. by left. }
      rewrite filter_cons_True by done.
      rewrite IH; [by rewrite <- app_assoc|done| |].
      * by eapply sublist_cons_not_in.
      * intros i bi Hi Hbi Hin'. apply (Hbefore i bi); [done..|].
        rewrite fmap_cons. by right.
Qed.

(** X2: under the assumption the code documents the diff is exact.  When
    no two transactions of [a] share a signature and the signatures of
    [b] come in the order they have in [a] ([b] keeps a part of [a]), the
    diff holds exactly the transactions of [a] whose signature does not
    occur in [b]. *)
Theorem diff_exact_in_order (a b : TransactionSlice) :
  NoDup (Signature <$> a) ->
  (Signature <$> b) `sublist_of` (Signature <$> a) ->
  DiffTransactionSlices a b = filter (absent_from b) a.
Proof.
  intros Hnd Hsub.
  rewrite (DiffTransactionSlices_refines a b Hnd).
  unfold DiffSpec.DiffTransactionSlices_spec, DiffSpec.diff_loop.
  apply (diffspec_fold_exact b a 0 [] Hnd Hsub).
  intros i bi Hi. lia.
Qed.

Lemma diff_exact_in_order_witness :
  DiffTransactionSlices [tx1; tx2; tx3] [tx1; tx3]
  = filter (absent_from [tx1; tx3]) [tx1; tx2; tx3].
Proof.
  apply (diff_exact_in_order [tx1; tx2; tx3] [tx1; tx3]).
  - apply (bool_decide_unpack (NoDup _)). reflexivity.
  - simpl. apply sublist_skip, sublist_cons, sublist_skip. constructor.
Defined.

(** ** Blocks, messages and the chain *)

Record BlockHeader : Type := mkBlockHeader {
  Origin : bytes;
  PrevBlock : bytes;
  MerkelRoot : bytes;
  Timestamp : Z;
  Nonce : Z
}.

(** [Block] embeds a [*BlockHeader] and a [*TransactionSlice]; both
    pointers may be nil. *)
Record Block : Type := mkBlock {
  pBlockHeader : option BlockHeader;
  BlockSignature : bytes;
  pTransactionSlice : option TransactionSlice
}.

#[global] Instance BlockHeader_eq_dec : EqDecision BlockHeader.
Proof. solve_decision. Defined.

#[global] Instance Block_eq_dec : EqDecision Block.
Proof. solve_decision. Defined.

Definition set_header (b : Block) (h : BlockHeader) : Block :=
  {| pBlockHeader := Some h;
     BlockSignature := BlockSignature b;
     pTransactionSlice := pTransactionSlice b |}.

Definition set_signature (b : Block) (s : bytes) : Block :=
  {| pBlockHeader := pBlockHeader b;
     BlockSignature := s;
     pTransactionSlice := pTransactionSlice b |}.

Definition set_transactions (b : Block) (txs : TransactionSlice) : Block :=
  {| pBlockHeader := pBlockHeader b;
     BlockSignature := BlockSignature b;
     pTransactionSlice := Some txs |}.

Record Keypair : Type := mkKeypair {
  Public : bytes;
  Private : bytes
}.

Inductive MessageKind : Type :=
  | MESSAGE_SEND_TRANSACTION
  | MESSAGE_SEND_BLOCK.

Record Message : Type := mkMessage {
  Identifier : MessageKind;
  Data : bytes
}.

(** The lines [Run] writes to the log. *)
Inductive LogLine : Type :=
  | LogTransactionVerificationFailed (tr : Transaction)
  | LogBlockExists (b : Block)
  | LogBlockVerificationFailed (b : Block)
  | LogMissingBlocks
  | LogNewBlock (b : Block)
  | LogTransactionsDiffer
  | LogChainSize (n : nat).

(** The state [Run] owns.  The three channels the loop writes or hands out
    are the sequences of values sent so far: [nq] the outbound messages,
    [interruptBlockGen] the blocks handed to the miner. *)
Record Blockchain : Type := mkBlockchain {
  CurrentBlock : Block;
  BlockSlice : list Block;
  bl_Keypair : Keypair;
  nq : list Message;
  interruptBlockGen : list Block;
  logged : list LogLine
}.

Definition log_line (l : LogLine) (bl : Blockchain) : Blockchain :=
  {| CurrentBlock := CurrentBlock bl; BlockSlice := BlockSlice bl;
     bl_Keypair := bl_Keypair bl; nq := nq bl;
     interruptBlockGen := interruptBlockGen bl;
     logged := logged bl ++ [l] |}.

Definition set_CurrentBlock (b : Block) (bl : Blockchain) : Blockchain :=
  {| CurrentBlock := b; BlockSlice := BlockSlice bl;
     bl_Keypair := bl_Keypair bl; nq := nq bl;
     interruptBlockGen := interruptBlockGen bl;
     logged := logged bl |}.

(** [interruptBlockGen <- b] *)
Definition send_interrupt (b : Block) (bl : Blockchain) : Blockchain :=
  {| CurrentBlock := CurrentBlock bl; BlockSlice := BlockSlice bl;
     bl_Keypair := bl_Keypair bl; nq := nq bl;
     interruptBlockGen := interruptBlockGen bl ++ [b];
     logged := logged bl |}.

(** [bl.nq <- m] *)
Definition send_nq (m : Message) (bl : Blockchain) : Blockchain :=
  {| CurrentBlock := CurrentBlock bl; BlockSlice := BlockSlice bl;
     bl_Keypair := bl_Keypair bl; nq := nq bl ++ [m];
     interruptBlockGen := interruptBlockGen bl;
     logged := logged bl |}.

Definition AddBlock (b : Block) (bl : Blockchain) : Blockchain :=
  {| CurrentBlock := CurrentBlock bl; BlockSlice := BlockSlice bl ++ [b];
     bl_Keypair := bl_Keypair bl; nq := nq bl;
     interruptBlockGen := interruptBlockGen bl;
     logged := logged bl |}.

(** Modelled from the spec: [NewBlock] is not in the source files; a fresh
    pending block has the given previous-hash, an allocated header whose
    other fields are zero, no signature and an empty transaction
    sequence. *)
Definition NewBlock (previousBlock : bytes) : Block :=
  {| pBlockHeader := Some (mkBlockHeader None previousBlock None 0 0);
     BlockSignature := None;
     pTransactionSlice := Some [] |}.

(** Modelled from the spec: [BlockSlice.PreviousBlock] is not in the
    source files; it returns the last element of the chain, or none when
    the chain is empty. *)
Definition PreviousBlock (chain : list Block) : option Block := last chain.

(** Modelled from the spec: [TransactionSlice.Exists] is not in the source
    files; a transaction exists in the pending block when its signature
    already occurs there. *)
Definition TransactionSlice_Exists (txs : TransactionSlice) (tr : Transaction)
  : bool :=
  existsb (fun t => DeepEqual (Signature t) (Signature tr)) txs.

(** Modelled from the spec: [Block.AddTransaction] is not in the source
    files; it appends the transaction to the block's sequence (through the
    block's pointer, hence the panic on nil). *)
Definition AddTransaction (b : Block) (tr : Transaction) : option Block :=
  txs ← pTransactionSlice b;
  Some (set_transactions b (txs ++ [tr])).

(** What the event loop of [Run] receives: a transaction on [tq] or a
    block on [bq]. *)
Inductive Input : Type :=
  | InTransaction (tr : Transaction)
  | InBlock (b : Block).

Section Engine.
(** Methods of [Block] and [Transaction] whose source is not in the two
    files, with the difficulty constants already applied. *)
Context (Hash : Block -> bytes).
Context (VerifyBlock : Block -> bool).
Context (VerifyTransaction : Transaction -> bool).
Context (MarshalBlock : Block -> bytes).
Context (MarshalTransaction : Transaction -> bytes).

(** Modelled from the spec: [BlockSlice.Exists] is not in the source
    files; membership in the chain is by hash equality. *)
Definition BlockSlice_Exists (chain : list Block) (b : Block) : bool :=
  existsb (fun bb => DeepEqual (Hash bb) (Hash b)) chain.

(** The previous-hash [CreateNewBlock] gives the block it creates. *)
Definition prevBlockHash (chain : list Block) : bytes :=
  match PreviousBlock chain with
  | Some prevBlock => Hash prevBlock
  | None => Some []
  end.

Definition CreateNewBlock (bl : Blockchain) : option Block :=
  let b := NewBlock (prevBlockHash (BlockSlice bl)) in
  h ← pBlockHeader b;
  Some (set_header b
          (mkBlockHeader (Public (bl_Keypair bl)) (PrevBlock h)
             (MerkelRoot h) (Timestamp h) (Nonce h))).

(** [case tr := <-bl.tq] *)
Definition Run_transaction (bl : Blockchain) (tr : Transaction)
  : option Blockchain :=
  txs ← pTransactionSlice (CurrentBlock bl);
  if TransactionSlice_Exists txs tr then Some bl
  else if negb (VerifyTransaction tr) then
    Some (log_line (LogTransactionVerificationFailed tr) bl)
  else
    cur ← AddTransaction (CurrentBlock bl) tr;
    let bl := set_CurrentBlock cur bl in
    let bl := send_interrupt (CurrentBlock bl) bl in
    let mes := mkMessage MESSAGE_SEND_TRANSACTION (MarshalTransaction tr) in
    Some (send_nq mes bl).

(** [case b := <-bl.bq] *)
Definition Run_block (bl : Blockchain) (b : Block) : option Blockchain :=
  if BlockSlice_Exists (BlockSlice bl) b then
    Some (log_line (LogBlockExists b) bl)
  else if negb (VerifyBlock b) then
    Some (log_line (LogBlockVerificationFailed b) bl)
  else
    hb ← pBlockHeader b;
    if DeepEqual (PrevBlock hb) (Hash (CurrentBlock bl)) then
      Some (log_line LogMissingBlocks bl)
    else
      let bl := log_line (LogNewBlock b) bl in
      hc ← pBlockHeader (CurrentBlock bl);
      '(transDiff, bl) ←
        (if negb (DeepEqual (MerkelRoot hb) (MerkelRoot hc)) then
           let bl := log_line LogTransactionsDiffer bl in
           ta ← pTransactionSlice (CurrentBlock bl);
           tb ← pTransactionSlice b;
           Some (DiffTransactionSlices ta tb, bl)
         else Some ([], bl));
      let bl := AddBlock b bl in
      let bl := log_line (LogChainSize (length (BlockSlice bl))) bl in
      let mes := mkMessage MESSAGE_SEND_BLOCK (MarshalBlock b) in
      let bl := send_nq mes bl in
      nb ← CreateNewBlock bl;
      let bl := set_CurrentBlock (set_transactions nb transDiff) bl in
      Some (send_interrupt (CurrentBlock bl) bl).

(** One iteration of the [select] loop. *)
Definition Run_step (bl : Blockchain) (i : Input) : option Blockchain :=
  match i with
  | InTransaction tr => Run_transaction bl tr
  | InBlock b => Run_block bl b
  end.

(** The loop over a sequence of inputs; [None] when an iteration
    panics. *)
Fixpoint Run (bl : Blockchain) (inputs : list Input) : option Blockchain :=
  match inputs with
  | [] => Some bl
  | i :: rest => bl' ← Run_step bl i; Run bl' rest
  end.

(** The number of transactions in the pending block. *)
Definition pending_count (bl : Blockchain) : nat :=
  length (default [] (pTransactionSlice (CurrentBlock bl))).

(** ** Properties of the event loop *)

Lemma pending_count_Some bl txs :
  pTransactionSlice (CurrentBlock bl) = Some txs ->
  pending_count bl = length txs.
Proof. unfold pending_count. by intros ->. Qed.

(** Adding a transaction makes it exist in the pending block. *)
Lemma TransactionSlice_Exists_snoc txs tr :
  TransactionSlice_Exists (txs ++ [tr]) tr = true.
Proof.
  unfold TransactionSlice_Exists. rewrite existsb_app. simpl.
  rewrite DeepEqual_refl. by rewrite orb_true_r.
Qed.

(** A transaction that is already in the pending block is dropped. *)
Lemma Run_transaction_duplicate bl tr txs :
  pTransactionSlice (CurrentBlock bl) = Some txs ->
  TransactionSlice_Exists txs tr = true ->
  Run_transaction bl tr = Some bl.
Proof. unfold Run_transaction. intros -> H. simpl. by rewrite H. Qed.

(** A transaction whose proof of work fails is dropped, with a log line. *)
Lemma Run_transaction_unverified bl tr txs :
  pTransactionSlice (CurrentBlock bl) = Some txs ->
  TransactionSlice_Exists txs tr = false ->
  VerifyTransaction tr = false ->
  Run_transaction bl tr =
    Some (log_line (LogTransactionVerificationFailed tr) bl).
Proof.
  unfold Run_transaction. intros -> H1 H2. simpl. by rewrite H1, H2.
Qed.

(** A new, verified transaction is appended, handed to the miner and
    announced. *)
Lemma Run_transaction_accepted bl tr txs :
  pTransactionSlice (CurrentBlock bl) = Some txs ->
  TransactionSlice_Exists txs tr = false ->
  VerifyTransaction tr = true ->
  let cur := set_transactions (CurrentBlock bl) (txs ++ [tr]) in
  Run_transaction bl tr =
    Some (send_nq (mkMessage MESSAGE_SEND_TRANSACTION (MarshalTransaction tr))
            (send_interrupt cur (set_CurrentBlock cur bl))).
Proof.
  unfold Run_transaction, AddTransaction. intros Ht H1 H2.
  rewrite Ht. simpl. by rewrite H1, H2.
Qed.

(** C8: a transaction that is rejected, because its signature is already
    in the pending block or because its proof of work does not verify,
    leaves the pending block's transaction count unchanged, and neither a
    reseed for the miner nor an outbound message is sent.  A transaction
    submitted twice in a row counts once: the second submission changes
    neither the count nor what was sent, and the two together raise the
    count by at most one (by one exactly when the first was accepted). *)
Theorem C8_rejected_transaction_is_dropped bl tr txs :
  pTransactionSlice (CurrentBlock bl) = Some txs ->
  (TransactionSlice_Exists txs tr = true \/ VerifyTransaction tr = false ->
   exists bl',
     Run_transaction bl tr = Some bl' /\
     pending_count bl' = pending_count bl /\
     CurrentBlock bl' = CurrentBlock bl /\
     BlockSlice bl' = BlockSlice bl /\
     interruptBlockGen bl' = interruptBlockGen bl /\
     nq bl' = nq bl) /\
  (exists bl1 bl2,
     Run_transaction bl tr = Some bl1 /\
     Run_transaction bl1 tr = Some bl2 /\
     pending_count bl2 = pending_count bl1 /\
     interruptBlockGen bl2 = interruptBlockGen bl1 /\
     nq bl2 = nq bl1 /\
     pending_count bl1 <= S (pending_count bl) /\
     (TransactionSlice_Exists txs tr = false -> VerifyTransaction tr = true ->
      pending_count bl2 = S (pending_count bl))).
Proof.
  intros Ht.
  destruct (TransactionSlice_Exists txs tr) eqn:Hex.
  - pose proof (Run_transaction_duplicate bl tr txs Ht Hex) as Hrun.
    split.
    + intros _. exists bl. by rewrite Hrun.
    + exists bl, bl. rewrite Hrun. repeat split; try done; try lia.
  - destruct (VerifyTransaction tr) eqn:Hv.
    + pose proof (Run_transaction_accepted bl tr txs Ht Hex Hv) as Hrun.
      simpl in Hrun.
      split; [intros [?|?]; done|].
      set (cur := set_transactions (CurrentBlock bl) (txs ++ [tr])) in *.
      set (bl1 := send_nq _ _) in Hrun.
      assert (Ht1 : pTransactionSlice (CurrentBlock bl1) = Some (txs ++ [tr]))
        by done.
      pose proof (Run_transaction_duplicate bl1 tr _ Ht1
                    (TransactionSlice_Exists_snoc txs tr)) as Hrun1.
      exists bl1, bl1. rewrite Hrun, Hrun1.
      rewrite (pending_count_Some bl1 _ Ht1), (pending_count_Some bl _ Ht).
      rewrite length_app. simpl.
      repeat split; try done; lia.
    + pose proof (Run_transaction_unverified bl tr txs Ht Hex Hv) as Hrun.
      set (bl1 := log_line _ bl) in Hrun.
      assert (Ht1 : pTransactionSlice (CurrentBlock bl1) = Some txs) by done.
      pose proof (Run_transaction_unverified bl1 tr txs Ht1 Hex Hv) as Hrun1.
      split.
      * intros _. exists bl1. by rewrite Hrun.
      * exists bl1, (log_line (LogTransactionVerificationFailed tr) bl1).
        rewrite Hrun, Hrun1.
        repeat split; try done.
        unfold pending_count. simpl. lia.
Qed.

(** A verified block that is not in the chain and whose previous-hash
    equals the hash of the pending block is only logged as a gap. *)
Lemma Run_block_missing_blocks bl b hb :
  BlockSlice_Exists (BlockSlice bl) b = false ->
  VerifyBlock b = true ->
  pBlockHeader b = Some hb ->
  PrevBlock hb = Hash (CurrentBlock bl) ->
  Run_block bl b = Some (log_line LogMissingBlocks bl).
Proof.
  unfold Run_block. intros -> -> -> Heq. simpl.
  apply DeepEqual_true in Heq. by rewrite Heq.
Qed.

(** Every other verified block that is not in the chain is appended and
    broadcast, whatever its previous-hash: the chain tip plays no part in
    the test. *)
Lemma Run_block_appended bl b hb hc ta tb :
  BlockSlice_Exists (BlockSlice bl) b = false ->
  VerifyBlock b = true ->
  pBlockHeader b = Some hb ->
  pBlockHeader (CurrentBlock bl) = Some hc ->
  pTransactionSlice (CurrentBlock bl) = Some ta ->
  pTransactionSlice b = Some tb ->
  PrevBlock hb <> Hash (CurrentBlock bl) ->
  exists bl',
    Run_block bl b = Some bl' /\
    BlockSlice bl' = BlockSlice bl ++ [b] /\
    nq bl' = nq bl ++ [mkMessage MESSAGE_SEND_BLOCK (MarshalBlock b)] /\
    interruptBlockGen bl' = interruptBlockGen bl ++ [CurrentBlock bl'] /\
    (exists hn, pBlockHeader (CurrentBlock bl') = Some hn /\
                PrevBlock hn = Hash b /\ Origin hn = Public (bl_Keypair bl)) /\
    pTransactionSlice (CurrentBlock bl') =
      Some (if DeepEqual (MerkelRoot hb) (MerkelRoot hc) then []
            else DiffTransactionSlices ta tb) /\
    (LogMissingBlocks ∉ drop (length (logged bl)) (logged bl')).
Proof.
  intros Hex Hv Hhb Hhc Hta Htb Hne.
  unfold Run_block. rewrite Hex, Hv, Hhb. simpl.
  apply DeepEqual_false in Hne. rewrite Hne. rewrite Hhc. simpl.
  assert (Hlast : prevBlockHash (BlockSlice bl ++ [b]) = Hash b).
  { unfold prevBlockHash, PreviousBlock. by rewrite last_snoc. }
  destruct (DeepEqual (MerkelRoot hb) (MerkelRoot hc)); simpl.
  - unfold CreateNewBlock. simpl. eexists. split; [reflexivity|]. simpl.
    repeat split; try done.
    + eexists. split; [reflexivity|]. simpl. by split.
    + rewrite <- app_assoc, drop_app_length. simpl.
      intros H. repeat (apply elem_of_cons in H as [H|H]; [discriminate H|]).
      by apply elem_of_nil in H.
  - rewrite Hta, Htb. simpl.
    unfold CreateNewBlock. simpl. eexists. split; [reflexivity|]. simpl.
    repeat split; try done.
    + eexists. split; [reflexivity|]. simpl. by split.
    + rewrite <- !app_assoc, drop_app_length. simpl.
      intros H. repeat (apply elem_of_cons in H as [H|H]; [discriminate H|]).
      by apply elem_of_nil in H.
Qed.

(** C1 fails on the code: the test of line 488 compares the previous-hash
    of the incoming block with the hash of the pending block and takes
    the gap branch when they are equal.  A verified block that is not in
    the chain, whose previous-hash is neither the hash of the chain tip
    (a gap) nor the hash of the pending block, is appended to the chain
    and broadcast, and no gap is logged. *)
Theorem C1_gap_block_is_appended bl b hb hc ta tb :
  BlockSlice_Exists (BlockSlice bl) b = false ->
  VerifyBlock b = true ->
  pBlockHeader b = Some hb ->
  pBlockHeader (CurrentBlock bl) = Some hc ->
  pTransactionSlice (CurrentBlock bl) = Some ta ->
  pTransactionSlice b = Some tb ->
  PrevBlock hb <> prevBlockHash (BlockSlice bl) ->
  PrevBlock hb <> Hash (CurrentBlock bl) ->
  exists bl',
    Run_block bl b = Some bl' /\
    BlockSlice bl' = BlockSlice bl ++ [b] /\
    length (BlockSlice bl') = S (length (BlockSlice bl)) /\
    nq bl' = nq bl ++ [mkMessage MESSAGE_SEND_BLOCK (MarshalBlock b)] /\
    interruptBlockGen bl' = interruptBlockGen bl ++ [CurrentBlock bl'] /\
    (exists hn, pBlockHeader (CurrentBlock bl') = Some hn /\
                PrevBlock hn = Hash b) /\
    (LogMissingBlocks ∉ drop (length (logged bl)) (logged bl')).
Proof.
  intros Hex Hv Hhb Hhc Hta Htb _ Hne.
  destruct (Run_block_appended bl b hb hc ta tb Hex Hv Hhb Hhc Hta Htb Hne)
    as (bl' & Hrun & Hchain & Hnq & Hint & (hn & Hhn & Hprev & _) & _ & Hlog).
  exists bl'. split; [done|]. split; [done|].
  split; [rewrite Hchain, length_app; simpl; lia|].
  split; [done|]. split; [done|]. split; [|done].
  by exists hn.
Qed.

(** ** Further properties of the event loop *)

(** Two states of the engine that differ at most in the log. *)
Definition same_but_log (bl bl' : Blockchain) : Prop :=
  CurrentBlock bl' = CurrentBlock bl /\
  BlockSlice bl' = BlockSlice bl /\
  bl_Keypair bl' = bl_Keypair bl /\
  nq bl' = nq bl /\
  interruptBlockGen bl' = interruptBlockGen bl.

(** The blocks among the inputs, in order. *)
Definition input_blocks (inputs : list Input) : list Block :=
  omap (fun i => match i with InBlock b => Some b | _ => None end) inputs.

(** The transactions of the pending block (none for a nil pointer). *)
Definition pending (bl : Blockchain) : TransactionSlice :=
  default [] (pTransactionSlice (CurrentBlock bl)).

(** An iteration of the loop took its input in: one message went out on
    [nq], and the pending block, as it is afterwards, was handed to the
    miner. *)
Definition accepted (bl bl' : Blockchain) : Prop :=
  bl_Keypair bl' = bl_Keypair bl /\
  (exists m, nq bl' = nq bl ++ [m]) /\
  interruptBlockGen bl' = interruptBlockGen bl ++ [CurrentBlock bl'].

Lemma same_but_log_refl bl : same_but_log bl bl.
Proof. by repeat split. Qed.

Lemma same_but_log_log_line l bl : same_but_log bl (log_line l bl).
Proof. by repeat split. Qed.

(** What an iteration on a transaction can do. *)
Lemma Run_transaction_cases bl tr bl' :
  Run_transaction bl tr = Some bl' ->
  same_but_log bl bl' \/
  (accepted bl bl' /\ BlockSlice bl' = BlockSlice bl /\
   exists txs,
     pTransactionSlice (CurrentBlock bl) = Some txs /\
     TransactionSlice_Exists txs tr = false /\
     VerifyTransaction tr = true /\
     CurrentBlock bl' = set_transactions (CurrentBlock bl) (txs ++ [tr])).
Proof.
  unfold Run_transaction.
  destruct (pTransactionSlice (CurrentBlock bl)) as [txs|] eqn:Ht; simpl; [|done].
  destruct (TransactionSlice_Exists txs tr) eqn:Hex.
  { intros [= <-]. left. apply same_but_log_refl. }
  destruct (VerifyTransaction tr) eqn:Hv; simpl.
  2: { intros [= <-]. left. apply same_but_log_log_line. }
  unfold AddTransaction. rewrite Ht. simpl. intros [= <-]. right.
  split; [|split; [done|by exists txs]].
  split; [done|]. split; [by eexists|done].
Qed.

(** What an iteration on a block can do. *)
Lemma Run_block_cases bl b bl' :
  Run_block bl b = Some bl' ->
  same_but_log bl bl' \/
  (accepted bl bl' /\ BlockSlice bl' = BlockSlice bl ++ [b] /\
   BlockSlice_Exists (BlockSlice bl) b = false /\
   VerifyBlock b = true /\
   exists hb hc,
     pBlockHeader b = Some hb /\ pBlockHeader (CurrentBlock bl) = Some hc /\
     PrevBlock hb <> Hash (CurrentBlock bl) /\
     ((MerkelRoot hb = MerkelRoot hc /\
       pTransactionSlice (CurrentBlock bl') = Some [])
      \/
      (MerkelRoot hb <> MerkelRoot hc /\
       exists ta tb,
         pTransactionSlice (CurrentBlock bl) = Some ta /\
         pTransactionSlice b = Some tb /\
         pTransactionSlice (CurrentBlock bl')
           = Some (DiffTransactionSlices ta tb)))).
Proof.
  unfold Run_block.
  destruct (BlockSlice_Exists (BlockSlice bl) b) eqn:Hex.
  { intros [= <-]. left. apply same_but_log_log_line. }
  destruct (VerifyBlock b) eqn:Hv; simpl.
  2: { intros [= <-]. left. apply same_but_log_log_line. }
  destruct (pBlockHeader b) as [hb|] eqn:Hhb; simpl; [|done].
  destruct (DeepEqual (PrevBlock hb) (Hash (CurrentBlock bl))) eqn:Hprev.
  { intros [= <-]. left. apply same_but_log_log_line. }
  apply DeepEqual_false in Hprev.
  destruct (pBlockHeader (CurrentBlock bl)) as [hc|] eqn:Hhc; simpl; [|done].
  destruct (DeepEqual (MerkelRoot hb) (MerkelRoot hc)) eqn:Hm; simpl.
  - apply DeepEqual_true in Hm. unfold CreateNewBlock. simpl.
    intros [= <-]. right. simpl.
    split; [split; [done|split; [by eexists|done]]|].
    split; [done|]. split; [done|]. split; [done|].
    exists hb, hc. repeat split; try done. by left.
  - apply DeepEqual_false in Hm.
    destruct (pTransactionSlice (CurrentBlock bl)) as [ta|] eqn:Hta; simpl; [|done].
    destruct (pTransactionSlice b) as [tb|] eqn:Htb; simpl; [|done].
    unfold CreateNewBlock. simpl.
    intros [= <-]. right. simpl.
    split; [split; [done|split; [by eexists|done]]|].
    split; [done|]. split; [done|]. split; [done|].
    exists hb, hc. repeat split; try done. right. split; [done|].
    by exists ta, tb.
Qed.

(** X6: a block that is already in the chain, or
    whose verification fails, is dropped: the iteration writes one line
    to the log and changes nothing else (the chain, the pending block,
    the messages sent and the blocks handed to the miner stay as they
    are), whether or not the block has a header. *)
Theorem rejected_block_is_dropped bl b :
  BlockSlice_Exists (BlockSlice bl) b = true \/ VerifyBlock b = false ->
  exists bl' l,
    Run_block bl b = Some bl' /\
    same_but_log bl bl' /\
    logged bl' = logged bl ++ [l] /\
    (l = LogBlockExists b \/ l = LogBlockVerificationFailed b).
Proof.
  intros H. unfold Run_block.
  destruct (BlockSlice_Exists (BlockSlice bl) b) eqn:Hex.
  - eexists _, _. split; [reflexivity|].
    split; [apply same_but_log_log_line|]. split; [done|by left].
  - destruct H as [H|H]; [done|]. rewrite H. simpl.
    eexists _, _. split; [reflexivity|].
    split; [apply same_but_log_log_line|]. split; [done|by right].
Qed.

(** One iteration extends the chain by at most the block it received. *)
Lemma Run_step_chain bl i bl' :
  Run_step bl i = Some bl' ->
  exists new,
    BlockSlice bl' = BlockSlice bl ++ new /\
    new `sublist_of` input_blocks [i] /\
    Forall (fun b => VerifyBlock b = true) new.
Proof.
  destruct i as [tr|b]; simpl.
  - intros [(_ & Hc & _)|(_ & Hc & _)]%Run_transaction_cases;
      exists []; rewrite Hc, app_nil_r; by repeat split.
  - intros [(_ & Hc & _)|(_ & Hc & _ & Hv & _)]%Run_block_cases.
    + exists []. rewrite Hc, app_nil_r. split; [done|].
      split; [by apply sublist_cons|constructor].
    + exists [b]. split; [done|]. split; [done|]. by repeat constructor.
Qed.

(** X4: the chain is append-only.  Over any sequence of
    inputs the loop gets through, the chain it ends with is the chain it
    started with followed by blocks taken, in order, from the block
    inputs, each of which passed [VerifyBlock]; transactions never change
    the chain. *)
Theorem chain_append_only inputs :
  forall bl bl',
    Run bl inputs = Some bl' ->
    exists new,
      BlockSlice bl' = BlockSlice bl ++ new /\
      new `sublist_of` input_blocks inputs /\
      Forall (fun b => VerifyBlock b = true) new /\
      length (BlockSlice bl) <= length (BlockSlice bl').
Proof.
  induction inputs as [|i inputs IH]; intros bl bl' Hrun; simpl in Hrun.
  - injection Hrun as <-. exists []. rewrite app_nil_r. by repeat split.
  - destruct (Run_step bl i) as [bl1|] eqn:Hstep; simpl in Hrun; [|done].
    destruct (Run_step_chain _ _ _ Hstep) as (n1 & H1 & S1 & V1).
    destruct (IH _ _ Hrun) as (n2 & H2 & S2 & V2 & _).
    exists (n1 ++ n2). rewrite H2, H1, <- app_assoc.
    split; [done|]. split.
    + replace (input_blocks (i :: inputs))
        with (input_blocks [i] ++ input_blocks inputs) by (by destruct i).
      by apply sublist_app.
    + split; [by apply Forall_app|]. rewrite !length_app. lia.
Qed.

(** X5: messages and reseeds go out in step.  Over any
    sequence of inputs the loop gets through, as many messages are sent
    on [nq] as blocks are handed to the miner, and unless no input was
    taken in (then the pending block is untouched) the last block handed
    to the miner is the pending block the loop ends with. *)
Theorem miner_follows_pending inputs :
  forall bl bl',
    Run bl inputs = Some bl' ->
    (exists ms seeds,
        nq bl' = nq bl ++ ms /\
        interruptBlockGen bl' = interruptBlockGen bl ++ seeds /\
        length ms = length seeds) /\
    ((CurrentBlock bl' = CurrentBlock bl /\
      interruptBlockGen bl' = interruptBlockGen bl)
     \/ last (interruptBlockGen bl') = Some (CurrentBlock bl')).
Proof.
  induction inputs as [|i inputs IH]; intros bl bl'; simpl.
  - intros [= <-]. split; [|by left].
    exists [], []. by rewrite !app_nil_r.
  - destruct (Run_step bl i) as [bl1|] eqn:Hstep; simpl; [|done].
    intros Hrun. destruct (IH _ _ Hrun) as [(ms & seeds & Hn & Hi & Hl) Hlast].
    assert (Hcase : same_but_log bl bl1 \/ accepted bl bl1).
    { destruct i as [tr|b]; simpl in Hstep.
      - apply Run_transaction_cases in Hstep as [?|[? _]]; auto.
      - apply Run_block_cases in Hstep as [?|[? _]]; auto. }
    destruct Hcase as [(Hc & _ & _ & Hq & Hg)|(_ & [m Hq] & Hg)].
    + rewrite Hq in Hn. rewrite Hg in Hi. rewrite Hc, Hg in Hlast.
      split; [by exists ms, seeds|done].
    + split.
      * exists (m :: ms), (CurrentBlock bl1 :: seeds).
        rewrite Hn, Hq, Hi, Hg, <- !app_assoc. simpl.
        split; [done|]. split; [done|]. by rewrite Hl.
      * right. destruct Hlast as [[Hc Hg']|Hlast]; [|done].
        rewrite Hg', Hg, Hc. apply last_snoc.
Qed.

(** X7: taking a block in never adds a
    transaction to the pending block.  After an iteration on a block the
    pending transactions are a subsequence of those pending before: all
    of them when the block is dropped, none when the block is appended
    and its Merkle root is that of the pending block, and otherwise the
    diff of the pending transactions against those of the block. *)
Theorem block_carries_pending_forward bl b bl' :
  Run_block bl b = Some bl' ->
  pending bl' `sublist_of` pending bl /\
  (BlockSlice bl' = BlockSlice bl -> pending bl' = pending bl) /\
  (BlockSlice bl' <> BlockSlice bl ->
   pending bl' = [] \/
   pending bl' = DiffTransactionSlices (pending bl)
                   (default [] (pTransactionSlice b))).
Proof.
  intros [(Hc & Hch & _)|(_ & Hch & _ & _ & hb & hc & _ & _ & _ & Hd)]%Run_block_cases.
  - unfold pending. rewrite Hc. repeat split; try done.
  - assert (Hne : BlockSlice bl' <> BlockSlice bl).
    { rewrite Hch. intros Heq.
      apply (f_equal length) in Heq. rewrite length_app in Heq.
      simpl in Heq. lia. }
    unfold pending.
    destruct Hd as [[_ ->]|(_ & ta & tb & -> & -> & ->)]; simpl.
    + split; [apply sublist_nil_l|]. split; [done|]. by left.
    + split; [apply DiffTransactionSlices_sublist|]. split; [done|]. by right.
Qed.

Lemma TransactionSlice_Exists_false txs tr :
  TransactionSlice_Exists txs tr = false ->
  Signature tr ∉ Signature <$> txs.
Proof.
  unfold TransactionSlice_Exists. intros Hex Hin.
  apply list_elem_of_fmap in Hin as (t & Hs & Ht).
  assert (existsb (fun t => DeepEqual (Signature t) (Signature tr)) txs = true);
    [|congruence].
  apply existsb_exists. exists t. split; [by apply list_elem_of_In|].
  by apply DeepEqual_true.
Qed.

Lemma Run_step_pending_distinct bl i bl' :
  Run_step bl i = Some bl' ->
  NoDup (Signature <$> pending bl) ->
  NoDup (Signature <$> pending bl').
Proof.
  destruct i as [tr|b]; simpl.
  - intros [(Hc & _)|(_ & _ & txs & Ht & Hex & _ & Hc)]%Run_transaction_cases;
      unfold pending; rewrite Hc; [done|].
    rewrite Ht. simpl. intros Hnd. rewrite fmap_app. simpl.
    apply NoDup_app. split; [done|]. split; [|apply NoDup_singleton].
    intros s Hs ->%list_elem_of_singleton.
    by apply (TransactionSlice_Exists_false txs tr).
  - intros Hrun. destruct (block_carries_pending_forward _ _ _ Hrun) as [Hs _].
    intros Hnd. eapply sublist_NoDup; [exact Hnd|]. by apply fmap_sublist.
Qed.

(** X8: with membership in the pending block
    decided on the signature (as [TransactionSlice.Exists] is modelled),
    the loop keeps the signatures of the pending transactions pairwise
    distinct: a transaction is added only when its signature is new, and
    a block only removes pending transactions. *)
Theorem pending_signatures_distinct inputs :
  forall bl bl',
    NoDup (Signature <$> pending bl) ->
    Run bl inputs = Some bl' ->
    NoDup (Signature <$> pending bl').
Proof.
  induction inputs as [|i inputs IH]; intros bl bl' Hnd Hrun; simpl in Hrun.
  - by injection Hrun as <-.
  - destruct (Run_step bl i) as [bl1|] eqn:Hstep; simpl in Hrun; [|done].
    apply (IH bl1); [|done]. by eapply Run_step_pending_distinct.
Qed.

End Engine.

(** ** The event loop on sample inputs *)

Module EngineSample.

(** Stand-ins for the methods that are parameters of the model: the hash
    of a block lists the nonce, the timestamp, the previous-hash and the
    Merkle root of its header. *)
Definition Hash (b : Block) : bytes :=
  match pBlockHeader b with
  | Some h =>
      Some (Nonce h :: Timestamp h ::
            default [] (PrevBlock h) ++ default [] (MerkelRoot h))
  | None => None
  end.

Definition VerifyBlock (b : Block) : bool := true.

Definition VerifyTransaction (tr : Transaction) : bool :=
  (TxNonce tr =? 0)%Z.

Definition MarshalBlock (b : Block) : bytes := Hash b.

Definition MarshalTransaction (tr : Transaction) : bytes := Signature tr.

Definition keys : Keypair := mkKeypair (Some [11%Z]) (Some [12%Z]).

Definition genesis : Block :=
  {| pBlockHeader :=
       Some (mkBlockHeader (Some [11%Z]) (Some []) (Some [7%Z]) 100 5);
     BlockSignature := Some [1%Z];
     pTransactionSlice := Some [tx1] |}.

(** The pending block on top of [genesis], holding [tx2]. *)
Definition pending_header : BlockHeader :=
  mkBlockHeader (Some [11%Z]) (Hash genesis) None 0 0.

Definition pending : Block :=
  {| pBlockHeader := Some pending_header;
     BlockSignature := None;
     pTransactionSlice := Some [tx2] |}.

Definition node : Blockchain :=
  {| CurrentBlock := pending; BlockSlice := [genesis]; bl_Keypair := keys;
     nq := []; interruptBlockGen := []; logged := [] |}.

(** A block from elsewhere: its previous-hash is neither the hash of
    [genesis] nor the hash of [pending]. *)
Definition stray_header : BlockHeader :=
  mkBlockHeader (Some [21%Z]) (Some [42%Z; 42%Z]) (Some [8%Z]) 200 1.

Definition stray : Block :=
  {| pBlockHeader := Some stray_header;
     BlockSignature := Some [2%Z];
     pTransactionSlice := Some [tx3] |}.

(** A transaction whose proof of work does not verify. *)
Definition tx_bad : Transaction :=
  mkTransaction None None 0 None 0 1 (Some [4%Z]) None.

End EngineSample.

Example Run_sample_accepts_tx3 :
  pending_count EngineSample.node = 1 /\
  (pending_count <$>
     Run EngineSample.Hash EngineSample.VerifyBlock
       EngineSample.VerifyTransaction EngineSample.MarshalBlock
       EngineSample.MarshalTransaction EngineSample.node
       [InTransaction tx3; InTransaction tx3; InTransaction EngineSample.tx_bad;
        InTransaction tx2]) = Some 2.
Proof. split; reflexivity. Qed.

Lemma C8_rejected_transaction_is_dropped_witness :
  (EngineSample.VerifyTransaction EngineSample.tx_bad = false /\
   exists bl',
     Run_transaction EngineSample.VerifyTransaction
       EngineSample.MarshalTransaction EngineSample.node EngineSample.tx_bad
       = Some bl' /\
     pending_count bl' = pending_count EngineSample.node /\
     CurrentBlock bl' = CurrentBlock EngineSample.node /\
     BlockSlice bl' = BlockSlice EngineSample.node /\
     interruptBlockGen bl' = interruptBlockGen EngineSample.node /\
     nq bl' = nq EngineSample.node).
Proof.
  split; [reflexivity|].
  apply (C8_rejected_transaction_is_dropped EngineSample.VerifyTransaction
           EngineSample.MarshalTransaction EngineSample.node
           EngineSample.tx_bad [tx2] eq_refl).
  right. reflexivity.
Defined.

Lemma C1_gap_block_is_appended_witness :
  exists bl',
    Run_block EngineSample.Hash EngineSample.VerifyBlock
      EngineSample.MarshalBlock EngineSample.node EngineSample.stray
      = Some bl' /\
    BlockSlice bl' = [EngineSample.genesis] ++ [EngineSample.stray] /\
    length (BlockSlice bl') = 2 /\
    nq bl' = [] ++ [mkMessage MESSAGE_SEND_BLOCK
                      (EngineSample.MarshalBlock EngineSample.stray)] /\
    interruptBlockGen bl' = [] ++ [CurrentBlock bl'] /\
    (exists hn, pBlockHeader (CurrentBlock bl') = Some hn /\
                PrevBlock hn = EngineSample.Hash EngineSample.stray) /\
    LogMissingBlocks ∉ drop 0 (logged bl').
Proof.
  apply (C1_gap_block_is_appended EngineSample.Hash EngineSample.VerifyBlock
           EngineSample.MarshalBlock EngineSample.node EngineSample.stray
           EngineSample.stray_header EngineSample.pending_header [tx2] [tx3]);
    try reflexivity; discriminate.
Defined.

(** The run of the sample: the stray block ends up on the chain, right
    after a block it does not point to, and is broadcast. *)
Example Run_block_sample_stray :
  (BlockSlice <$>
     Run_block EngineSample.Hash EngineSample.VerifyBlock
       EngineSample.MarshalBlock EngineSample.node EngineSample.stray)
    = Some [EngineSample.genesis; EngineSample.stray] /\
  (nq <$>
     Run_block EngineSample.Hash EngineSample.VerifyBlock
       EngineSample.MarshalBlock EngineSample.node EngineSample.stray)
    = Some [mkMessage MESSAGE_SEND_BLOCK
              (EngineSample.MarshalBlock EngineSample.stray)] /\
  pBlockHeader EngineSample.stray ≫= (fun h => Some (PrevBlock h))
    <> Some (EngineSample.Hash EngineSample.genesis).
Proof. split; [reflexivity|]. split; [reflexivity|]. discriminate. Qed.

(** ** Further runs of the event loop on the sample *)

Module EngineRun.

Definition Run := Run EngineSample.Hash EngineSample.VerifyBlock
  EngineSample.VerifyTransaction EngineSample.MarshalBlock
  EngineSample.MarshalTransaction.

Definition Run_block := Run_block EngineSample.Hash EngineSample.VerifyBlock
  EngineSample.MarshalBlock.

Definition inputs : list Input :=
  [InTransaction tx3; InBlock EngineSample.genesis; InTransaction tx3;
   InBlock EngineSample.stray; InTransaction tx1].

(** The state the sample node is in after [inputs]. *)
Definition final : Blockchain := default EngineSample.node (Run EngineSample.node inputs).

Definition after_stray : Blockchain :=
  default EngineSample.node (Run_block EngineSample.node EngineSample.stray).

End EngineRun.

Example Run_sample_final :
  EngineRun.Run EngineSample.node EngineRun.inputs = Some EngineRun.final /\
  BlockSlice EngineRun.final = [EngineSample.genesis; EngineSample.stray] /\
  pending EngineRun.final = [tx2; tx1] /\
  length (nq EngineRun.final) = 3 /\
  length (interruptBlockGen EngineRun.final) = 3.
Proof. repeat split; reflexivity. Qed.

Lemma chain_append_only_witness :
  exists new,
    BlockSlice EngineRun.final = BlockSlice EngineSample.node ++ new /\
    new `sublist_of` input_blocks EngineRun.inputs /\
    Forall (fun b => EngineSample.VerifyBlock b = true) new /\
    length (BlockSlice EngineSample.node) <= length (BlockSlice EngineRun.final).
Proof.
  apply (chain_append_only EngineSample.Hash EngineSample.VerifyBlock
           EngineSample.VerifyTransaction EngineSample.MarshalBlock
           EngineSample.MarshalTransaction EngineRun.inputs
           EngineSample.node EngineRun.final).
  reflexivity.
Defined.

Lemma miner_follows_pending_witness :
  (exists ms seeds,
      nq EngineRun.final = nq EngineSample.node ++ ms /\
      interruptBlockGen EngineRun.final
        = interruptBlockGen EngineSample.node ++ seeds /\
      length ms = length seeds) /\
  ((CurrentBlock EngineRun.final = CurrentBlock EngineSample.node /\
    interruptBlockGen EngineRun.final = interruptBlockGen EngineSample.node)
   \/ last (interruptBlockGen EngineRun.final)
      = Some (CurrentBlock EngineRun.final)).
Proof.
  apply (miner_follows_pending EngineSample.Hash EngineSample.VerifyBlock
           EngineSample.VerifyTransaction EngineSample.MarshalBlock
           EngineSample.MarshalTransaction EngineRun.inputs
           EngineSample.node EngineRun.final).
  reflexivity.
Defined.

Lemma rejected_block_is_dropped_witness :
  exists bl' l,
    EngineRun.Run_block EngineSample.node EngineSample.genesis = Some bl' /\
    same_but_log EngineSample.node bl' /\
    logged bl' = logged EngineSample.node ++ [l] /\
    (l = LogBlockExists EngineSample.genesis \/
     l = LogBlockVerificationFailed EngineSample.genesis).
Proof.
  apply (rejected_block_is_dropped EngineSample.Hash EngineSample.VerifyBlock
           EngineSample.MarshalBlock EngineSample.node EngineSample.genesis).
  left. reflexivity.
Defined.

Lemma block_carries_pending_forward_witness :
  pending EngineRun.after_stray `sublist_of` pending EngineSample.node /\
  (BlockSlice EngineRun.after_stray = BlockSlice EngineSample.node ->
   pending EngineRun.after_stray = pending EngineSample.node) /\
  (BlockSlice EngineRun.after_stray <> BlockSlice EngineSample.node ->
   pending EngineRun.after_stray = [] \/
   pending EngineRun.after_stray
   = DiffTransactionSlices (pending EngineSample.node)
       (default [] (pTransactionSlice EngineSample.stray))).
Proof.
  apply (block_carries_pending_forward EngineSample.Hash
           EngineSample.VerifyBlock EngineSample.MarshalBlock
           EngineSample.node EngineSample.stray EngineRun.after_stray).
  reflexivity.
Defined.

Lemma pending_signatures_distinct_witness :
  NoDup (Signature <$> pending EngineRun.final).
Proof.
  apply (pending_signatures_distinct EngineSample.Hash
           EngineSample.VerifyBlock
           EngineSample.VerifyTransaction EngineSample.MarshalBlock
           EngineSample.MarshalTransaction EngineRun.inputs
           EngineSample.node EngineRun.final).
  - apply (bool_decide_unpack (NoDup _)). reflexivity.
  - reflexivity.
Defined.

(** * The miner: [Blockchain.GenerateBlocks] *)

(** The goroutine is modelled on its own, from one receive to the next.
    The block it holds is a value: the header and the transactions it
    reads are those of the seed as it was received, changed by the miner
    only (the loop of [Run] hands over a new seed after each change it
    makes to the pending block).  [Timestamp] and [Nonce] are 32 bits
    wide, as in [BLOCK_HEADER_SIZE] and in the conversion
    [uint32(time.Now().Unix())]. *)

(** Conversion to [uint32]. *)
Definition uint32 (z : Z) : Z := (z mod 2 ^ 32)%Z.

(** What wakes the goroutine of [GenerateBlocks]: a block received on the
    [interrupt] channel ([now] is the value [time.Now().Unix()] has when
    the goroutine reads it after the receive), or the timer of the
    [select] firing. *)
Inductive MinerInput : Type :=
  | Interrupt (seed : Block) (now : Z)
  | TimerFired.

(** What the goroutine does that can be observed. *)
Inductive MinerAction : Type :=
  | LogStartingProofOfWork (b : Block)
  | EvalProofOfWork (b : Block)      (* [CheckProofOfWork(BLOCK_POW, block.Hash())] *)
  | SendBlock (b : Block)            (* [bl.bq <- block] *)
  | LogFoundBlock (b : Block)
  | LogNoTransactions.

(** The goroutine waits for its first block, or holds the block it works
    on, or has died of a nil dereference. *)
Inductive MinerState : Type :=
  | AwaitingFirstSeed
  | Searching (block : Block)
  | Panicked.

Definition is_EvalProofOfWork (a : MinerAction) : bool :=
  match a with EvalProofOfWork _ => true | _ => false end.

Definition is_SendBlock (a : MinerAction) : bool :=
  match a with SendBlock _ => true | _ => false end.

(** The blocks whose hash was put to the proof-of-work test, in order. *)
Definition hashed (acts : list MinerAction) : list Block :=
  omap (fun a => match a with EvalProofOfWork b => Some b | _ => None end) acts.

(** The blocks sent on the result queue, in order. *)
Definition sent (acts : list MinerAction) : list Block :=
  omap (fun a => match a with SendBlock b => Some b | _ => None end) acts.

Section Miner.
(** Functions of the package whose source is not in the two files. *)
Context (Hash : Block -> bytes).
Context (GenerateMerkelRoot : Block -> bytes).
Context (CheckProofOfWork : bytes -> bytes -> bool).
Context (BLOCK_POW : bytes).
Context (Sign : Block -> Keypair -> bytes).
Context (keypair : Keypair).

(** The three assignments below the label [loop]. *)
Definition reseed (block : Block) (now : Z) : option Block :=
  let root := GenerateMerkelRoot block in
  h ← pBlockHeader block;
  Some (set_header block
          (mkBlockHeader (Origin h) (PrevBlock h) root (uint32 now) 0)).

(** The body of the inner [for], up to the [select].
    [TransactionSlice.Len], whose source is not in the two files, is the
    number of transactions of the slice. *)
Definition search_step (block : Block) : option (Block * list MinerAction) :=
  txs ← pTransactionSlice block;
  if 0 <? length txs then
    if CheckProofOfWork BLOCK_POW (Hash block) then
      let sealed := set_signature block (Sign block keypair) in
      Some (sealed,
            [EvalProofOfWork block; SendBlock sealed; LogFoundBlock sealed])
    else
      h ← pBlockHeader block;
      Some (set_header block
              (mkBlockHeader (Origin h) (PrevBlock h) (MerkelRoot h)
                 (Timestamp h) (uint32 (Nonce h + 1))),
            [EvalProofOfWork block])
  else Some (block, [LogNoTransactions]).

(** From the label [loop] to the first [select]. *)
Definition enter_loop (seed : Block) (now : Z)
  : MinerState * list MinerAction :=
  match reseed seed now with
  | None => (Panicked, [LogStartingProofOfWork seed])
  | Some block =>
      match search_step block with
      | None => (Panicked, [LogStartingProofOfWork seed])
      | Some (block', acts) =>
          (Searching block', LogStartingProofOfWork seed :: acts)
      end
  end.

(** From one receive ([block := <-interrupt] or the [select]) to the
    next. *)
Definition miner_step (st : MinerState) (ev : MinerInput)
  : MinerState * list MinerAction :=
  match st, ev with
  | Panicked, _ => (Panicked, [])
  | _, Interrupt seed now => enter_loop seed now
  | AwaitingFirstSeed, TimerFired => (AwaitingFirstSeed, [])
  | Searching block, TimerFired =>
      match search_step block with
      | None => (Panicked, [])
      | Some (block', acts) => (Searching block', acts)
      end
  end.

(** The goroutine of [GenerateBlocks], from the state [st] and over the
    receives [evs]: the state it ends in and what it did. *)
Fixpoint GenerateBlocks (st : MinerState) (evs : list MinerInput)
  : MinerState * list MinerAction :=
  match evs with
  | [] => (st, [])
  | ev :: rest =>
      let '(st1, acts1) := miner_step st ev in
      let '(st2, acts2) := GenerateBlocks st1 rest in
      (st2, acts1 ++ acts2)
  end.

(** A block holds no transaction. *)
Definition no_transactions (b : Block) : Prop :=
  default [] (pTransactionSlice b) = [].

(** An input that brings no transaction to the miner: the timer, or a
    seed with an empty transaction set. *)
Definition brings_no_transactions (ev : MinerInput) : Prop :=
  match ev with
  | TimerFired => True
  | Interrupt seed _ => no_transactions seed
  end.

(** The header a block has after [reseed], up to its nonce. *)
Definition reseeded_header (seed : Block) (h : BlockHeader) (now : Z)
  (nonce : Z) : BlockHeader :=
  mkBlockHeader (Origin h) (PrevBlock h) (GenerateMerkelRoot seed)
    (uint32 now) nonce.

(** The miner holds no block with transactions. *)
Definition quiet (st : MinerState) : Prop :=
  match st with
  | Searching block => no_transactions block
  | _ => True
  end.

(** ** Properties of the miner *)

Lemma hashed_app acts1 acts2 : hashed (acts1 ++ acts2) = hashed acts1 ++ hashed acts2.
Proof. unfold hashed. apply omap_app. Qed.

Lemma sent_app acts1 acts2 : sent (acts1 ++ acts2) = sent acts1 ++ sent acts2.
Proof. unfold sent. apply omap_app. Qed.

Lemma reseed_transactions seed now block :
  reseed seed now = Some block ->
  pTransactionSlice block = pTransactionSlice seed.
Proof.
  unfold reseed. destruct (pBlockHeader seed); simpl; [|done].
  by intros [= <-].
Qed.

(** With no transaction in the block the body of the loop only logs. *)
Lemma search_step_idle block block' acts :
  no_transactions block ->
  search_step block = Some (block', acts) ->
  block' = block /\ acts = [LogNoTransactions].
Proof.
  unfold no_transactions, search_step.
  destruct (pTransactionSlice block) as [txs|]; simpl; [|done].
  intros ->. simpl. by intros [= <- <-].
Qed.

(** A block is sent only from a non-empty transaction set, and the block
    that is hashed is the one the loop holds. *)
Lemma search_step_actions block block' acts :
  search_step block = Some (block', acts) ->
  pTransactionSlice block' = pTransactionSlice block /\
  (forall b, b ∈ sent acts -> ~ no_transactions b) /\
  (hashed acts = [] \/ hashed acts = [block]) /\
  (~ no_transactions block -> hashed acts = [block]).
Proof.
  unfold search_step, no_transactions.
  destruct (pTransactionSlice block) as [txs|] eqn:Ht; simpl; [|done].
  destruct (0 <? length txs) eqn:Hlen.
  - apply Nat.ltb_lt in Hlen.
    destruct (CheckProofOfWork BLOCK_POW (Hash block)).
    + intros [= <- <-]. simpl. rewrite Ht. repeat split; auto.
      intros b Hb. apply list_elem_of_singleton in Hb as ->. simpl.
      rewrite Ht. simpl. intros ->. simpl in Hlen. lia.
    + destruct (pBlockHeader block) as [h|]; simpl; [|done].
      intros [= <- <-]. simpl. repeat split; auto.
      intros b Hb. by apply elem_of_nil in Hb.
  - apply Nat.ltb_ge in Hlen.
    intros [= <- <-]. simpl. repeat split; auto.
    + intros b Hb. by apply elem_of_nil in Hb.
    + intros Hne. destruct txs; [done|]. simpl in Hlen. lia.
Qed.

(** Once reseeded, the header keeps its Merkle root and timestamp; only
    the nonce moves, and the body of the loop does not panic. *)
Lemma search_step_reseeded seed h now txs block n :
  pBlockHeader block = Some (reseeded_header seed h now n) ->
  pTransactionSlice block = Some txs ->
  exists block' acts n',
    search_step block = Some (block', acts) /\
    pBlockHeader block' = Some (reseeded_header seed h now n') /\
    pTransactionSlice block' = Some txs.
Proof.
  intros Hh Ht. unfold search_step. rewrite Ht. simpl.
  destruct (0 <? length txs).
  - destruct (CheckProofOfWork BLOCK_POW (Hash block)).
    + eexists _, _, n. split; [reflexivity|]. by simpl.
    + rewrite Hh. simpl. eexists _, _, _. split; [reflexivity|]. by simpl.
  - eexists _, _, n. split; [reflexivity|]. done.
Qed.

(** The blocks hashed while only the timer fires. *)
Lemma miner_run_timer seed h now txs k :
  forall block n,
    pBlockHeader block = Some (reseeded_header seed h now n) ->
    pTransactionSlice block = Some txs ->
    Forall (fun b =>
              exists m, pBlockHeader b = Some (reseeded_header seed h now m) /\
                        pTransactionSlice b = Some txs)
      (hashed (GenerateBlocks (Searching block) (replicate k TimerFired)).2) /\
    (txs = [] ->
     hashed (GenerateBlocks (Searching block) (replicate k TimerFired)).2 = []).
Proof.
  induction k as [|k IH]; intros block n Hh Ht; simpl; [by split|].
  destruct (search_step_reseeded seed h now txs block n Hh Ht)
    as (block' & acts & n' & Hs & Hh' & Ht').
  rewrite Hs.
  destruct (IH block' n' Hh' Ht') as [IH1 IH2].
  destruct (GenerateBlocks (Searching block') (replicate k TimerFired))
    as [st2 acts2] eqn:Hrun.
  simpl in *. rewrite hashed_app.
  pose proof (search_step_actions _ _ _ Hs) as (_ & _ & Hhashed & _).
  split.
  - apply Forall_app. split; [|done].
    destruct Hhashed as [->| ->]; [constructor|].
    constructor; [|constructor]. eauto.
  - intros ->. rewrite (IH2 eq_refl), app_nil_r.
    apply search_step_idle in Hs as [_ ->]; [done|].
    unfold no_transactions. by rewrite Ht.
Qed.

(** C5: whenever the miner receives a seed (with an allocated header and
    transaction set), whatever it was doing before, it restarts from that
    seed alone: the nonce is 0, the Merkle root is recomputed from the
    seed and the timestamp is the current time.  These assignments come
    before any hashing for the seed: the first block hashed after the
    receive is exactly the reseeded block, and every block hashed until
    the next seed carries the recomputed Merkle root and timestamp and
    the seed's transactions. *)
Theorem C5_reseed_before_hashing st seed now h txs k :
  st <> Panicked ->
  pBlockHeader seed = Some h ->
  pTransactionSlice seed = Some txs ->
  reseed seed now = Some (set_header seed (reseeded_header seed h now 0)) /\
  miner_step st (Interrupt seed now) = enter_loop seed now /\
  GenerateBlocks st (Interrupt seed now :: replicate k TimerFired) =
    GenerateBlocks AwaitingFirstSeed (Interrupt seed now :: replicate k TimerFired) /\
  head (GenerateBlocks st (Interrupt seed now :: replicate k TimerFired)).2
    = Some (LogStartingProofOfWork seed) /\
  (forall b,
      head (hashed (GenerateBlocks st (Interrupt seed now :: replicate k TimerFired)).2)
        = Some b ->
      b = set_header seed (reseeded_header seed h now 0)) /\
  Forall (fun b =>
            exists n, pBlockHeader b = Some (reseeded_header seed h now n) /\
                      pTransactionSlice b = Some txs)
    (hashed (GenerateBlocks st (Interrupt seed now :: replicate k TimerFired)).2).
Proof.
  intros Hst Hh Ht.
  assert (Hre : reseed seed now
                = Some (set_header seed (reseeded_header seed h now 0))).
  { unfold reseed. rewrite Hh. done. }
  assert (Hstep : miner_step st (Interrupt seed now) = enter_loop seed now).
  { by destruct st. }
  split; [done|]. split; [done|].
  split; [simpl; by rewrite Hstep|].
  simpl. rewrite Hstep. unfold enter_loop. rewrite Hre.
  set (block0 := set_header seed (reseeded_header seed h now 0)).
  assert (Hh0 : pBlockHeader block0 = Some (reseeded_header seed h now 0))
    by done.
  assert (Ht0 : pTransactionSlice block0 = Some txs) by done.
  destruct (search_step_reseeded seed h now txs block0 0 Hh0 Ht0)
    as (block' & acts & n' & Hs & Hh' & Ht').
  rewrite Hs.
  destruct (miner_run_timer seed h now txs k block' n' Hh' Ht') as [Hall Hnone].
  destruct (GenerateBlocks (Searching block') (replicate k TimerFired))
    as [st2 acts2] eqn:Hrun.
  simpl in *.
  pose proof (search_step_actions _ _ _ Hs) as (_ & _ & Hhashed & Hfirst).
  split; [done|].
  change (LogStartingProofOfWork seed :: acts ++ acts2)
    with ([LogStartingProofOfWork seed] ++ acts ++ acts2).
  rewrite !hashed_app. simpl.
  split.
  - intros b.
    destruct txs as [|t txs].
    + rewrite (Hnone eq_refl), app_nil_r.
      apply search_step_idle in Hs as [_ ->]; [done|].
      unfold no_transactions. simpl. by rewrite Ht.
    + rewrite Hfirst; [by intros [= <-]|].
      unfold no_transactions. simpl. by rewrite Ht.
  - apply Forall_app. split; [|done].
    destruct Hhashed as [->| ->]; [constructor|].
    constructor; [|constructor]. eauto.
Qed.

(** Nothing is sent by one step of the miner unless the block has
    transactions. *)
Lemma miner_step_sent st ev b :
  b ∈ sent (miner_step st ev).2 -> ~ no_transactions b.
Proof.
  assert (Henter : forall seed now,
             b ∈ sent (enter_loop seed now).2 -> ~ no_transactions b).
  { intros seed now. unfold enter_loop.
    destruct (reseed seed now) as [block|]; simpl;
      [|intros H; by apply elem_of_nil in H].
    destruct (search_step block) as [[block' acts]|] eqn:Hs; simpl;
      [|intros H; by apply elem_of_nil in H].
    apply search_step_actions in Hs as (_ & Hsent & _). apply Hsent. }
  destruct st as [|block|], ev as [seed now|]; simpl; try apply Henter;
    try (intros H; by apply elem_of_nil in H).
  destruct (search_step block) as [[block' acts]|] eqn:Hs; simpl;
    [|intros H; by apply elem_of_nil in H].
  apply search_step_actions in Hs as (_ & Hsent & _). apply Hsent.
Qed.

Lemma enter_loop_quiet seed now :
  no_transactions seed ->
  quiet (enter_loop seed now).1 /\
  hashed (enter_loop seed now).2 = [] /\
  sent (enter_loop seed now).2 = [].
Proof.
  intros Hno. unfold enter_loop.
  destruct (reseed seed now) as [block|] eqn:Hre; simpl; [|done].
  assert (Hnb : no_transactions block).
  { unfold no_transactions in *. by rewrite (reseed_transactions _ _ _ Hre). }
  destruct (search_step block) as [[block' acts]|] eqn:Hs; simpl; [|done].
  by apply search_step_idle in Hs as [-> ->].
Qed.

Lemma miner_step_quiet st ev :
  quiet st -> brings_no_transactions ev ->
  quiet (miner_step st ev).1 /\
  hashed (miner_step st ev).2 = [] /\
  sent (miner_step st ev).2 = [].
Proof.
  intros Hq Hev.
  destruct st as [|block|], ev as [seed now|]; simpl in *;
    try (by apply enter_loop_quiet); try done.
  destruct (search_step block) as [[block' acts]|] eqn:Hs; simpl; [|done].
  by apply search_step_idle in Hs as [-> ->].
Qed.

Lemma miner_run_quiet evs :
  forall st,
    quiet st -> Forall brings_no_transactions evs ->
    hashed (GenerateBlocks st evs).2 = [] /\ sent (GenerateBlocks st evs).2 = [].
Proof.
  induction evs as [|ev evs IH]; intros st Hq Hall; simpl; [done|].
  apply Forall_cons in Hall as [Hev Hall].
  destruct (miner_step_quiet st ev Hq Hev) as (Hq1 & Hh1 & Hs1).
  destruct (miner_step st ev) as [st1 acts1]. simpl in *.
  destruct (IH st1 Hq1 Hall) as [Hh2 Hs2].
  destruct (GenerateBlocks st1 evs) as [st2 acts2]. simpl in *.
  by rewrite hashed_app, sent_app, Hh1, Hh2, Hs1, Hs2.
Qed.

Lemma miner_run_sent evs :
  forall st b, b ∈ sent (GenerateBlocks st evs).2 -> ~ no_transactions b.
Proof.
  induction evs as [|ev evs IH]; intros st b; simpl.
  - intros H. by apply elem_of_nil in H.
  - pose proof (miner_step_sent st ev b) as Hstep.
    destruct (miner_step st ev) as [st1 acts1]. simpl in *.
    specialize (IH st1 b).
    destruct (GenerateBlocks st1 evs) as [st2 acts2]. simpl in *.
    rewrite sent_app. intros [H|H]%elem_of_app; auto.
Qed.

(** C6: the miner never sends a block whose transaction set is empty.
    For a seed with no transaction, and as long as no seed with
    transactions arrives (the timer fires, or further empty seeds come
    in), no proof of work is evaluated and no block is sent on the result
    queue. *)
Theorem C6_no_block_without_transactions st evs :
  (forall b, b ∈ sent (GenerateBlocks st evs).2 -> ~ no_transactions b) /\
  (forall seed now,
      no_transactions seed ->
      Forall brings_no_transactions evs ->
      hashed (GenerateBlocks st (Interrupt seed now :: evs)).2 = [] /\
      sent (GenerateBlocks st (Interrupt seed now :: evs)).2 = []).
Proof.
  split; [apply miner_run_sent|].
  intros seed now Hno Hall.
  destruct st as [|block|].
  - apply miner_run_quiet; [done|]. by constructor.
  - simpl.
    destruct (enter_loop_quiet seed now Hno) as (Hq1 & Hh1 & Hs1).
    destruct (enter_loop seed now) as [st1 acts1]. simpl in *.
    destruct (miner_run_quiet evs st1 Hq1 Hall) as [Hh2 Hs2].
    destruct (GenerateBlocks st1 evs) as [st2 acts2]. simpl in *.
    by rewrite hashed_app, sent_app, Hh1, Hh2, Hs1, Hs2.
  - apply miner_run_quiet; [done|]. by constructor.
Qed.

(** ** Further properties of the miner *)

(** A block that was sent: it is the block [block], which met the
    target, signed with the node's key. *)
Definition sealed_from (block sealed : Block) : Prop :=
  CheckProofOfWork BLOCK_POW (Hash block) = true /\
  sealed = set_signature block (Sign block keypair).

Lemma search_step_sealed block block' acts :
  search_step block = Some (block', acts) ->
  Forall (fun sealed => exists b, b ∈ hashed acts /\ sealed_from b sealed)
    (sent acts).
Proof.
  unfold search_step.
  destruct (pTransactionSlice block) as [txs|]; simpl; [|done].
  destruct (0 <? length txs); [|intros [= <- <-]; constructor].
  destruct (CheckProofOfWork BLOCK_POW (Hash block)) eqn:Hpow.
  - intros [= <- <-]. simpl. constructor; [|constructor].
    exists block. split; [by left|]. by split.
  - destruct (pBlockHeader block); simpl; [|done].
    intros [= <- <-]. constructor.
Qed.

Lemma miner_step_sealed st ev :
  Forall (fun sealed =>
            exists b, b ∈ hashed (miner_step st ev).2 /\ sealed_from b sealed)
    (sent (miner_step st ev).2).
Proof.
  assert (Henter : forall seed now,
    Forall (fun sealed =>
              exists b, b ∈ hashed (enter_loop seed now).2 /\ sealed_from b sealed)
      (sent (enter_loop seed now).2)).
  { intros seed now. unfold enter_loop.
    destruct (reseed seed now) as [block|]; [|constructor].
    destruct (search_step block) as [[block' acts]|] eqn:Hs; [|constructor].
    simpl. apply search_step_sealed in Hs. exact Hs. }
  destruct st as [|block|], ev as [seed now|]; simpl;
    try apply Henter; try constructor.
  destruct (search_step block) as [[block' acts]|] eqn:Hs; [|constructor].
  simpl. by apply search_step_sealed in Hs.
Qed.

(** X9: whatever the miner receives, every block it
    sends on the result queue is a block it hashed, whose hash met the
    target [BLOCK_POW], and carries the signature [Sign] gives that block
    with the node's key. *)
Theorem sent_blocks_meet_target st evs :
  Forall (fun sealed =>
            exists b, b ∈ hashed (GenerateBlocks st evs).2 /\
                      sealed_from b sealed)
    (sent (GenerateBlocks st evs).2).
Proof.
  revert st. induction evs as [|ev evs IH]; intros st; simpl; [constructor|].
  pose proof (miner_step_sealed st ev) as H1.
  destruct (miner_step st ev) as [st1 acts1].
  specialize (IH st1).
  destruct (GenerateBlocks st1 evs) as [st2 acts2]. simpl in *.
  rewrite sent_app, hashed_app. apply Forall_app. split.
  - eapply Forall_impl; [exact H1|]. simpl. intros sealed (b & Hb & Hs).
    exists b. split; [|done]. apply elem_of_app. by left.
  - eapply Forall_impl; [exact IH|]. simpl. intros sealed (b & Hb & Hs).
    exists b. split; [|done]. apply elem_of_app. by right.
Qed.

(** The nonces of a list of hashed blocks. *)
Definition nonces (bs : list Block) : list (option Z) :=
  (fun b => Nonce <$> pBlockHeader b) <$> bs.

Lemma uint32_succ m :
  uint32 (uint32 (Z.of_nat m) + 1) = uint32 (Z.of_nat (S m)).
Proof.
  unfold uint32. rewrite Zplus_mod_idemp_l. f_equal. lia.
Qed.

Lemma miner_run_nonces seed h now txs k :
  forall block m,
    pBlockHeader block = Some (reseeded_header seed h now (uint32 (Z.of_nat m))) ->
    pTransactionSlice block = Some txs ->
    txs <> [] ->
    sent (GenerateBlocks (Searching block) (replicate k TimerFired)).2 = [] ->
    nonces (hashed (GenerateBlocks (Searching block) (replicate k TimerFired)).2)
    = (fun i => Some (uint32 (Z.of_nat i))) <$> seq m k.
Proof.
  induction k as [|k IH]; intros block m Hh Ht Hne; simpl; [done|].
  unfold search_step. rewrite Ht. simpl.
  destruct txs as [|t txs]; [done|]. simpl.
  destruct (CheckProofOfWork BLOCK_POW (Hash block)).
  { destruct (GenerateBlocks _ _) as [st2 acts2]. simpl. done. }
  rewrite Hh. simpl.
  set (block' := set_header block _).
  specialize (IH block' (S m)).
  destruct (GenerateBlocks (Searching block') (replicate k TimerFired))
    as [st2 acts2]. simpl in *.
  intros Hsent. unfold nonces in *. rewrite Hh. simpl. f_equal.
  apply IH; try done.
  unfold block'. simpl. unfold reseeded_header. by rewrite uint32_succ.
Qed.

(** X10: the search tries the nonces in order.  After a seed
    with transactions, as long as no block has been sent, the blocks
    hashed at the receive and at the [k] timer wake-ups that follow carry
    the nonces 0, 1, ..., [k] (modulo 2^32), none skipped. *)
Theorem nonces_in_order st seed now h txs k :
  st <> Panicked ->
  pBlockHeader seed = Some h ->
  pTransactionSlice seed = Some txs ->
  txs <> [] ->
  sent (GenerateBlocks st (Interrupt seed now :: replicate k TimerFired)).2 = [] ->
  nonces (hashed (GenerateBlocks st (Interrupt seed now :: replicate k TimerFired)).2)
  = (fun i => Some (uint32 (Z.of_nat i))) <$> seq 0 (S k).
Proof.
  intros Hst Hh Ht Hne. simpl.
  assert (Hstep : miner_step st (Interrupt seed now) = enter_loop seed now)
    by (by destruct st).
  rewrite Hstep. unfold enter_loop, reseed. rewrite Hh. simpl.
  unfold search_step. simpl. rewrite Ht. simpl.
  destruct txs as [|t txs]; [done|]. simpl.
  set (block0 := set_header seed _).
  destruct (CheckProofOfWork BLOCK_POW (Hash block0)).
  { destruct (GenerateBlocks _ _) as [st2 acts2]. simpl. done. }
  simpl. set (block1 := set_header block0 _).
  pose proof (miner_run_nonces seed h now (t :: txs) k block1 1) as Hrun.
  destruct (GenerateBlocks (Searching block1) (replicate k TimerFired))
    as [st2 acts2]. simpl in *.
  intros Hsent. unfold nonces in *. simpl. f_equal.
  apply Hrun; try done.
Qed.

(** X11: a seed whose header pointer or transaction
    pointer is nil makes the goroutine panic at the first use of the
    pointer, before anything is hashed: nothing is hashed or sent for
    that seed, nor on any later input. *)
Theorem nil_seed_stops_miner st seed now evs :
  st <> Panicked ->
  pBlockHeader seed = None \/ pTransactionSlice seed = None ->
  (GenerateBlocks st (Interrupt seed now :: evs)).1 = Panicked /\
  hashed (GenerateBlocks st (Interrupt seed now :: evs)).2 = [] /\
  sent (GenerateBlocks st (Interrupt seed now :: evs)).2 = [].
Proof.
  intros Hst Hnil.
  assert (Hdead : forall evs, GenerateBlocks Panicked evs = (Panicked, [])).
  { clear. induction evs as [|ev evs IH]; simpl; [done|]. by rewrite IH. }
  assert (Hstep : miner_step st (Interrupt seed now)
                  = (Panicked, [LogStartingProofOfWork seed])).
  { assert (Henter : enter_loop seed now
                     = (Panicked, [LogStartingProofOfWork seed])).
    { unfold enter_loop, reseed.
      destruct (pBlockHeader seed) as [h|] eqn:Hh; simpl; [|done].
      destruct Hnil as [|Hnil]; [done|].
      unfold search_step. simpl. by rewrite Hnil. }
    by destruct st. }
  simpl. rewrite Hstep, Hdead. done.
Qed.

End Miner.

(** ** The miner on sample inputs *)

Module MinerSample.

Definition GenerateMerkelRoot (b : Block) : bytes :=
  Some (TxNonce <$> default [] (pTransactionSlice b)).

(** The proof of work is met from nonce 2 on (the nonce is the first
    byte of the sample hash). *)
Definition CheckProofOfWork (prefix hash : bytes) : bool :=
  match hash with
  | Some (n :: _) => (2 <=? n)%Z
  | _ => false
  end.

Definition BLOCK_POW : bytes := Some [0%Z; 0%Z].

Definition Sign (b : Block) (k : Keypair) : bytes := Private k.

Definition run (st : MinerState) (evs : list MinerInput)
  : MinerState * list MinerAction :=
  GenerateBlocks EngineSample.Hash GenerateMerkelRoot CheckProofOfWork BLOCK_POW
    Sign EngineSample.keys st evs.

(** A seed without transactions. *)
Definition empty_seed : Block :=
  {| pBlockHeader := Some EngineSample.pending_header;
     BlockSignature := None;
     pTransactionSlice := Some [] |}.

End MinerSample.

(** Seeded with a block of one transaction, the sample miner hashes at
    nonces 0, 1 and 2 and then sends the block. *)
Example miner_sample_search :
  let acts := (MinerSample.run AwaitingFirstSeed
                 [Interrupt EngineSample.pending 1000; TimerFired; TimerFired]).2 in
  (fun b => Nonce <$> pBlockHeader b) <$> hashed acts
    = [Some 0%Z; Some 1%Z; Some 2%Z] /\
  length (sent acts) = 1.
Proof. split; reflexivity. Qed.

(** A new seed in the middle of a search restarts the nonce at 0. *)
Example miner_sample_restart :
  let acts := (MinerSample.run AwaitingFirstSeed
                 [Interrupt EngineSample.pending 1000; TimerFired;
                  Interrupt EngineSample.stray 1001; TimerFired]).2 in
  (fun b => (fun h => (Nonce h, Timestamp h)) <$> pBlockHeader b) <$> hashed acts
    = [Some (0%Z, 1000%Z); Some (1%Z, 1000%Z);
       Some (0%Z, 1001%Z); Some (1%Z, 1001%Z)] /\
  sent acts = [].
Proof. split; reflexivity. Qed.

Lemma C5_reseed_before_hashing_witness :
  reseed MinerSample.GenerateMerkelRoot EngineSample.stray 1001
    = Some (set_header EngineSample.stray
              (reseeded_header MinerSample.GenerateMerkelRoot
                 EngineSample.stray EngineSample.stray_header 1001 0)) /\
  Forall (fun b =>
            exists n,
              pBlockHeader b
                = Some (reseeded_header MinerSample.GenerateMerkelRoot
                          EngineSample.stray EngineSample.stray_header 1001 n) /\
              pTransactionSlice b = Some [tx3])
    (hashed (MinerSample.run (Searching EngineSample.pending)
               (Interrupt EngineSample.stray 1001 :: replicate 2 TimerFired)).2).
Proof.
  destruct (C5_reseed_before_hashing EngineSample.Hash
              MinerSample.GenerateMerkelRoot MinerSample.CheckProofOfWork
              MinerSample.BLOCK_POW MinerSample.Sign EngineSample.keys
              (Searching EngineSample.pending) EngineSample.stray 1001
              EngineSample.stray_header [tx3] 2)
    as (H1 & _ & _ & _ & _ & H6).
  - discriminate.
  - reflexivity.
  - reflexivity.
  - split; [exact H1|exact H6].
Defined.

Lemma C6_no_block_without_transactions_witness :
  hashed (MinerSample.run (Searching EngineSample.pending)
            (Interrupt MinerSample.empty_seed 1002 ::
             [TimerFired; Interrupt MinerSample.empty_seed 1003; TimerFired])).2
    = [] /\
  sent (MinerSample.run (Searching EngineSample.pending)
          (Interrupt MinerSample.empty_seed 1002 ::
           [TimerFired; Interrupt MinerSample.empty_seed 1003; TimerFired])).2
    = [].
Proof.
  apply (C6_no_block_without_transactions EngineSample.Hash
           MinerSample.GenerateMerkelRoot MinerSample.CheckProofOfWork
           MinerSample.BLOCK_POW MinerSample.Sign EngineSample.keys).
  - reflexivity.
  - repeat constructor.
Defined.

(** ** Further runs of the miner on the sample *)

Lemma nonces_in_order_witness :
  nonces (hashed (MinerSample.run AwaitingFirstSeed
                    (Interrupt EngineSample.pending 1000 ::
                     replicate 1 TimerFired)).2)
  = (fun i => Some (uint32 (Z.of_nat i))) <$> seq 0 2.
Proof.
  apply (nonces_in_order EngineSample.Hash MinerSample.GenerateMerkelRoot
           MinerSample.CheckProofOfWork MinerSample.BLOCK_POW MinerSample.Sign
           EngineSample.keys AwaitingFirstSeed EngineSample.pending 1000
           EngineSample.pending_header [tx2] 1);
    try reflexivity; discriminate.
Defined.

(** A seed with a nil header. *)
Definition headless_seed : Block := mkBlock None None (Some [tx1]).

Lemma nil_seed_stops_miner_witness :
  (MinerSample.run (Searching EngineSample.pending)
     (Interrupt headless_seed 1000 ::
      [TimerFired; Interrupt EngineSample.pending 1001; TimerFired])).1
  = Panicked /\
  hashed (MinerSample.run (Searching EngineSample.pending)
            (Interrupt headless_seed 1000 ::
             [TimerFired; Interrupt EngineSample.pending 1001; TimerFired])).2
  = [] /\
  sent (MinerSample.run (Searching EngineSample.pending)
          (Interrupt headless_seed 1000 ::
           [TimerFired; Interrupt EngineSample.pending 1001; TimerFired])).2
  = [].
Proof.
  apply (nil_seed_stops_miner EngineSample.Hash MinerSample.GenerateMerkelRoot
           MinerSample.CheckProofOfWork MinerSample.BLOCK_POW MinerSample.Sign
           EngineSample.keys).
  - discriminate.
  - left. reflexivity.
Defined.

(** * The chord transport *)

Definition reqTypeFirstBlock : Z := 43.
Definition reqTypeLastBlock : Z := 44.
Definition reqTypeBlock : Z := 45.
Definition reqTypeBlockBroadcast : Z := 46.
Definition reqTypeTxBroadcast : Z := 47.

Record bcHeader : Type := mkbcHeader { T : Z }.

(** [chord.Vnode] *)
Record Vnode : Type := mkVnode {
  Id : bytes;
  Host : string
}.

Definition VnodeSlice : Type := list Vnode.

(** A [net.Conn]: [conn_id] tells connections apart, [RemoteAddr] is the
    string [conn.RemoteAddr().String()] returns. *)
Record Conn : Type := mkConn {
  conn_id : nat;
  RemoteAddr : string
}.

#[global] Instance Conn_eq_dec : EqDecision Conn.
Proof. solve_decision. Defined.

Inductive error : Type :=
  | io_EOF
  | other_error (code : nat).

(** The [interface{}] values that are sent as the body of a request. *)
Inductive RequestBody : Type :=
  | BodyBlock (b : Block)
  | BodyTransaction (tx : Transaction)
  | BodyHash (h : bytes).

(** The transport.  [outbound] is the pool of idle connections.  The
    other fields record what the code does to the outside: [bch] the
    blocks sent on the block channel, [closed] the connections [Close] was
    called on, [issued] the calls of [doRequest] (host, header and body),
    [errlog] the errors logged; [clock] counts the calls into the network
    and the ring, whose answers may change from one call to the next. *)
Record ChordTransport : Type := mkChordTransport {
  outbound : gmap string (list Conn);
  bch : list Block;
  closed : list Conn;
  issued : list (string * bcHeader * RequestBody);
  errlog : list error;
  clock : nat
}.

Definition tick (ct : ChordTransport) : ChordTransport :=
  {| outbound := outbound ct; bch := bch ct; closed := closed ct;
     issued := issued ct; errlog := errlog ct; clock := S (clock ct) |}.

Definition set_outbound (m : gmap string (list Conn)) (ct : ChordTransport)
  : ChordTransport :=
  {| outbound := m; bch := bch ct; closed := closed ct;
     issued := issued ct; errlog := errlog ct; clock := clock ct |}.

(** [conn.Close()] *)
Definition close_conn (conn : Conn) (ct : ChordTransport) : ChordTransport :=
  {| outbound := outbound ct; bch := bch ct; closed := conn :: closed ct;
     issued := issued ct; errlog := errlog ct; clock := clock ct |}.

(** [ct.bch <- blk] *)
Definition send_bch (blk : Block) (ct : ChordTransport) : ChordTransport :=
  {| outbound := outbound ct; bch := bch ct ++ [blk]; closed := closed ct;
     issued := issued ct; errlog := errlog ct; clock := clock ct |}.

(** [log.Println("ERR", err)] *)
Definition log_error (e : error) (ct : ChordTransport) : ChordTransport :=
  {| outbound := outbound ct; bch := bch ct; closed := closed ct;
     issued := issued ct; errlog := errlog ct ++ [e]; clock := clock ct |}.

Definition record_request (host : string) (hdr : bcHeader) (req : RequestBody)
  (ct : ChordTransport) : ChordTransport :=
  {| outbound := outbound ct; bch := bch ct; closed := closed ct;
     issued := issued ct ++ [(host, hdr, req)]; errlog := errlog ct;
     clock := clock ct |}.

(** [var blk Block]: the zero value, which is also the reply [&Block{}]
    of a peer that does not have the block. *)
Definition zeroBlock : Block := mkBlock None None None.

(** [if err == io.EOF { err = nil }] *)
Definition drop_EOF (e : error) : option error :=
  match e with
  | io_EOF => None
  | other_error _ => Some e
  end.

(** An error came back. *)
Definition is_error (o : option error) : bool :=
  match o with Some _ => true | None => false end.

(** [returnConn] *)
Definition returnConn (conn : Conn) (ct : ChordTransport) : ChordTransport :=
  let addr := RemoteAddr conn in
  match outbound ct !! addr with
  | None => set_outbound (<[addr := [conn]]> (outbound ct)) ct
  | Some p => set_outbound (<[addr := p ++ [conn]]> (outbound ct)) ct
  end.

(** A connection is idle in the pool. *)
Definition pooled (ct : ChordTransport) (conn : Conn) : Prop :=
  exists h l, outbound ct !! h = Some l /\ conn ∈ l.

(** The pool is well formed: an idle list has no connection twice and
    holds connections to its key only, none of them closed. *)
Definition pool_inv (ct : ChordTransport) : Prop :=
  (forall h l, outbound ct !! h = Some l ->
     NoDup l /\
     Forall (fun c => RemoteAddr c = h /\ (c ∉ closed ct) /\ conn_id c < clock ct) l)
  /\ Forall (fun c => conn_id c < clock ct) (closed ct).

Section Transport.
(** The ring and the network, as the transport sees them.  The first
    argument of each is the value of [clock] at the call. *)
Context (Hostname : string).                    (* [ct.ring.Hostname()] *)
Context (NumSuccessors : nat).                  (* [ct.cc.NumSuccessors] *)
Context (Lookup : nat -> nat -> bytes -> VnodeSlice + error).
Context (Dial : nat -> string -> string + error).
Context (Encode : nat -> Conn -> option error).
Context (DecodeBlock : nat -> Conn -> Block * option error).
(** The order in which [range] visits the keys of a map: any order, each
    key once. *)
Context (range_keys : gmap string bool -> list string).
Context (range_keys_perm : forall m, range_keys m ≡ₚ (map_to_list m).*1).

Definition encode (conn : Conn) (ct : ChordTransport)
  : option error * ChordTransport :=
  (Encode (clock ct) conn, tick ct).

Definition decode (conn : Conn) (ct : ChordTransport)
  : (Block * option error) * ChordTransport :=
  (DecodeBlock (clock ct) conn, tick ct).

(** [getConn]: an idle connection of the pool, or a new one. *)
Definition getConn (addr : string) (ct : ChordTransport)
  : (Conn + error) * ChordTransport :=
  match outbound ct !! addr with
  | Some (c0 :: rest) =>
      (inl c0, set_outbound (<[addr := rest]> (outbound ct)) ct)
  | _ =>
      match Dial (clock ct) addr with
      | inl remote => (inl (mkConn (clock ct) remote), tick ct)
      | inr e => (inr e, tick ct)
      end
  end.

(** Lines 193 to 202 of [doRequest]: header, body and, when a response is
    wanted, the decoding of the response.  The result is the error, if
    any, and what was decoded into [resp]. *)
Definition request_io (conn : Conn) (wantResp : bool) (ct : ChordTransport)
  : (option error * option Block) * ChordTransport :=
  let '(err, ct) := encode conn ct in
  match err with
  | Some e => ((Some e, None), ct)
  | None =>
      let '(err, ct) := encode conn ct in
      match err with
      | Some e => ((Some e, None), ct)
      | None =>
          if wantResp then
            let '((blk, err), ct) := decode conn ct in
            ((err, Some blk), ct)
          else ((None, None), ct)
      end
  end.

Definition doRequest (host : string) (hdr : bcHeader) (req : RequestBody)
  (wantResp : bool) (ct : ChordTransport)
  : (option error * option Block) * ChordTransport :=
  let ct := record_request host hdr req ct in
  let '(r, ct) := getConn host ct in
  match r with
  | inr err => ((Some err, None), ct)
  | inl conn =>
      let '((err, resp), ct) := request_io conn wantResp ct in
      match err with
      | Some e => ((drop_EOF e, resp), close_conn conn ct)
      | None => ((None, resp), returnConn conn ct)
      end
  end.

(** Lines 111 to 115 of [getBlockByType]. *)
Definition block_io (conn : Conn) (ct : ChordTransport)
  : (option error * Block) * ChordTransport :=
  let '(err, ct) := encode conn ct in
  match err with
  | Some e => ((Some e, zeroBlock), ct)
  | None =>
      let '((blk, err), ct) := decode conn ct in
      ((err, blk), ct)
  end.

(** [getBlockByType]: the block pointer returned (nil when no connection
    could be had) and the error. *)
Definition getBlockByType (typ : Z) (host : string) (ct : ChordTransport)
  : (option Block * option error) * ChordTransport :=
  let '(r, ct) := getConn host ct in
  match r with
  | inr err => ((None, Some err), ct)
  | inl conn =>
      let '((err, blk), ct) := block_io conn ct in
      match err with
      | Some e => ((Some blk, drop_EOF e), close_conn conn ct)
      | None => ((Some blk, None), returnConn conn ct)
      end
  end.

(** [VnodeSlice.UniqueHosts] *)
Definition host_set (vl : VnodeSlice) : gmap string bool :=
  fold_left (fun m v => <[Host v := true]> m) vl ∅.

Definition UniqueHosts (vl : VnodeSlice) : list string :=
  range_keys (host_set vl).

(** The goroutine [broadcast] starts, run to its end. *)
Definition broadcast_worker (typ : Z) (v : RequestBody) (vns : VnodeSlice)
  (ct : ChordTransport) : ChordTransport :=
  fold_left
    (fun ct host =>
       if bool_decide (host = Hostname) then ct
       else
         let '((err, _), ct) := doRequest host (mkbcHeader typ) v false ct in
         match err with
         | Some e => log_error e ct
         | None => ct
         end)
    (UniqueHosts vns) ct.

Definition broadcast (typ : Z) (hsh : bytes) (v : RequestBody)
  (ct : ChordTransport) : option error * ChordTransport :=
  match Lookup (clock ct) NumSuccessors hsh with
  | inr err => (Some err, tick ct)
  | inl nodes => (None, broadcast_worker typ v nodes (tick ct))
  end.

Definition BroadcastBlock (BlockHash : Block -> bytes) (blk : Block)
  (ct : ChordTransport) : option error * ChordTransport :=
  broadcast reqTypeBlockBroadcast (BlockHash blk) (BodyBlock blk) ct.

Definition BroadcastTransaction (TxHash : Transaction -> bytes)
  (tx : Transaction) (ct : ChordTransport) : option error * ChordTransport :=
  broadcast reqTypeTxBroadcast (TxHash tx) (BodyTransaction tx) ct.

Definition LastBlock (host : string) (ct : ChordTransport)
  : (option Block * option error) * ChordTransport :=
  getBlockByType reqTypeLastBlock host ct.

Definition FirstBlock (host : string) (ct : ChordTransport)
  : (option Block * option error) * ChordTransport :=
  getBlockByType reqTypeFirstBlock host ct.

(** The inner loop of [RequestBlocks], over the hosts of one hash. *)
Definition request_block_from (hsh : bytes) (ct : ChordTransport)
  (host : string) : ChordTransport :=
  if bool_decide (host = Hostname) then ct
  else
    let '((e, resp), ct) :=
      doRequest host (mkbcHeader reqTypeBlock) (BodyHash hsh) true ct in
    match e with
    | Some e => log_error e ct
    | None =>
        let blk := default zeroBlock resp in
        match pBlockHeader blk with
        | None => ct
        | Some _ => send_bch blk ct
        end
    end.

Definition RequestBlocks (hashes : list bytes) (ct : ChordTransport)
  : ChordTransport :=
  fold_left
    (fun ct hsh =>
       match Lookup (clock ct) NumSuccessors hsh with
       | inr err => log_error err (tick ct)
       | inl vns =>
           fold_left (request_block_from hsh) (UniqueHosts vns) (tick ct)
       end)
    hashes ct.

(** The hosts [broadcast] sends to, for a replica set. *)
Definition broadcast_hosts (vns : VnodeSlice) : list string :=
  filter (fun host => host <> Hostname) (UniqueHosts vns).

(** How the connection of a request ends up: closed and out of the pool
    after an error, back at the end of the idle list of its remote
    address otherwise.  [ct1] is the transport once the connection was
    taken, [ct'] the transport after the request. *)
Definition conn_settled (ct1 : ChordTransport) (conn : Conn) (failed : bool)
  (ct' : ChordTransport) : Prop :=
  if failed then
    (conn ∈ closed ct') /\ ~ pooled ct' conn /\ outbound ct' = outbound ct1
  else
    (conn ∉ closed ct') /\
    outbound ct' =
      <[RemoteAddr conn :=
          default [] (outbound ct1 !! RemoteAddr conn) ++ [conn]]>
        (outbound ct1).

(** ** What the operations leave alone *)

Lemma getConn_frame addr ct :
  bch (getConn addr ct).2 = bch ct /\
  issued (getConn addr ct).2 = issued ct /\
  closed (getConn addr ct).2 = closed ct /\
  clock ct <= clock (getConn addr ct).2.
Proof.
  unfold getConn.
  destruct (outbound ct !! addr) as [[|c0 rest]|];
    try (destruct (Dial (clock ct) addr)); simpl; repeat split; lia.
Qed.

Lemma request_io_frame conn w ct :
  outbound (request_io conn w ct).2 = outbound ct /\
  bch (request_io conn w ct).2 = bch ct /\
  issued (request_io conn w ct).2 = issued ct /\
  closed (request_io conn w ct).2 = closed ct /\
  clock ct <= clock (request_io conn w ct).2.
Proof.
  unfold request_io, encode, decode. simpl.
  destruct (Encode (clock ct) conn); simpl; [repeat split; lia|].
  destruct (Encode (S (clock ct)) conn); simpl; [repeat split; lia|].
  destruct w; [|simpl; repeat split; lia].
  destruct (DecodeBlock (S (S (clock ct))) conn) as [blk err]. simpl.
  repeat split; lia.
Qed.

Lemma block_io_frame conn ct :
  outbound (block_io conn ct).2 = outbound ct /\
  closed (block_io conn ct).2 = closed ct /\
  clock ct <= clock (block_io conn ct).2.
Proof.
  unfold block_io, encode, decode. simpl.
  destruct (Encode (clock ct) conn); simpl; [repeat split; lia|].
  destruct (DecodeBlock (S (clock ct)) conn) as [blk err]. simpl.
  repeat split; lia.
Qed.

Lemma returnConn_frame conn ct :
  bch (returnConn conn ct) = bch ct /\
  issued (returnConn conn ct) = issued ct /\
  closed (returnConn conn ct) = closed ct /\
  clock (returnConn conn ct) = clock ct.
Proof. unfold returnConn. by destruct (outbound ct !! RemoteAddr conn). Qed.

Lemma returnConn_outbound conn ct :
  outbound (returnConn conn ct) =
    <[RemoteAddr conn := default [] (outbound ct !! RemoteAddr conn) ++ [conn]]>
      (outbound ct).
Proof. unfold returnConn. by destruct (outbound ct !! RemoteAddr conn). Qed.

(** [doRequest] is recorded once and sends nothing on the block channel. *)
Lemma doRequest_frame host hdr req w ct :
  bch (doRequest host hdr req w ct).2 = bch ct /\
  issued (doRequest host hdr req w ct).2 = issued ct ++ [(host, hdr, req)].
Proof.
  unfold doRequest.
  pose proof (getConn_frame host (record_request host hdr req ct))
    as (Hb & Hi & _).
  destruct (getConn host (record_request host hdr req ct)) as [[conn|e] ct1].
  - pose proof (request_io_frame conn w ct1) as (_ & Hb2 & Hi2 & _).
    destruct (request_io conn w ct1) as [[err resp] ct2]. simpl in *.
    destruct err as [e|]; simpl.
    + by rewrite Hb2, Hi2, Hb, Hi.
    + pose proof (returnConn_frame conn ct2) as (-> & -> & _).
      by rewrite Hb2, Hi2, Hb, Hi.
  - simpl in *. by rewrite Hb, Hi.
Qed.

(** ** Unique hosts *)

Lemma host_fold_lookup vl h :
  forall m : gmap string bool,
    is_Some (fold_left (fun m v => <[Host v := true]> m) vl m !! h) <->
    is_Some (m !! h) \/ exists v, v ∈ vl /\ Host v = h.
Proof.
  induction vl as [|v vl IH]; intros m; simpl.
  - split; [by left|]. intros [H|(v & Hv & _)]; [done|].
    by apply elem_of_nil in Hv.
  - rewrite IH. rewrite lookup_insert_is_Some'. split.
    + intros [[Heq|Hm]|(u & Hu & Hh)].
      * right. exists v. split; [by left|done].
      * by left.
      * right. exists u. split; [by right|done].
    + intros [Hm|(u & Hu & Hh)].
      * left. by right.
      * apply elem_of_cons in Hu as [->|Hu].
        -- left. by left.
        -- right. by exists u.
Qed.

Lemma UniqueHosts_spec vl :
  NoDup (UniqueHosts vl) /\
  (forall h, h ∈ UniqueHosts vl <-> exists v, v ∈ vl /\ Host v = h).
Proof.
  unfold UniqueHosts. split.
  - rewrite range_keys_perm. apply NoDup_fst_map_to_list.
  - intros h. rewrite range_keys_perm.
    rewrite list_elem_of_fmap.
    transitivity (is_Some (host_set vl !! h)).
    + split.
      * intros ([k x] & -> & Hin). apply elem_of_map_to_list in Hin.
        by exists x.
      * intros [x Hx]. exists (h, x). split; [done|].
        by apply elem_of_map_to_list.
    + unfold host_set. rewrite host_fold_lookup.
      rewrite lookup_empty. split.
      * intros [[x Hx]|H]; [done|done].
      * intros H. by right.
Qed.

Lemma broadcast_hosts_spec vl :
  NoDup (broadcast_hosts vl) /\
  (forall h, h ∈ broadcast_hosts vl <->
             h <> Hostname /\ exists v, v ∈ vl /\ Host v = h).
Proof.
  destruct (UniqueHosts_spec vl) as [Hnd Hin]. unfold broadcast_hosts. split.
  - by apply NoDup_filter.
  - intros h. rewrite list_elem_of_filter. by rewrite Hin.
Qed.

(** The requests the goroutine of [broadcast] issues, host by host. *)
Lemma broadcast_fold_issued typ v hosts :
  forall ct,
    issued
      (fold_left
         (fun ct host =>
            if bool_decide (host = Hostname) then ct
            else
              let '((err, _), ct) := doRequest host (mkbcHeader typ) v false ct in
              match err with
              | Some e => log_error e ct
              | None => ct
              end) hosts ct)
    = issued ct ++
      ((fun h => (h, mkbcHeader typ, v)) <$>
         filter (fun host => host <> Hostname) hosts).
Proof.
  induction hosts as [|h hosts IH]; intros ct; simpl.
  - by rewrite app_nil_r.
  - rewrite IH. destruct (bool_decide_reflect (h = Hostname)) as [Heq|Hne].
    + by rewrite filter_cons_False by (intros H; by apply H).
    + rewrite filter_cons_True by done.
      pose proof (doRequest_frame h (mkbcHeader typ) v false ct) as [_ Hi].
      destruct (doRequest h (mkbcHeader typ) v false ct) as [[err resp] ct1].
      simpl in Hi.
      rewrite fmap_cons.
      destruct err; simpl; rewrite Hi; by rewrite <- app_assoc.
Qed.

(** C3: for the replica set the lookup of a broadcast returns, the
    transport issues one request to each host of the set other than the
    local one: the hosts requested are pairwise distinct (several virtual
    nodes of one host give one request), each is the host of some node of
    the set, every such host other than the local one is requested, and
    the local host never is. *)
Theorem C3_broadcast_once_per_host ct typ hsh v nodes :
  Lookup (clock ct) NumSuccessors hsh = inl nodes ->
  issued (broadcast typ hsh v ct).2 =
    issued ct ++ ((fun h => (h, mkbcHeader typ, v)) <$> broadcast_hosts nodes) /\
  NoDup (broadcast_hosts nodes) /\
  (forall h, h ∈ broadcast_hosts nodes <->
             h <> Hostname /\ exists vn, vn ∈ nodes /\ Host vn = h) /\
  Hostname ∉ broadcast_hosts nodes.
Proof.
  intros Hl. unfold broadcast. rewrite Hl. simpl.
  destruct (broadcast_hosts_spec nodes) as [Hnd Hin].
  split; [|split; [done|split; [done|]]].
  - unfold broadcast_worker. by rewrite broadcast_fold_issued.
  - intros H. apply Hin in H as [H _]. by apply H.
Qed.

(** ** Pulling blocks *)

Lemma request_block_from_bch hsh ct host :
  exists new,
    bch (request_block_from hsh ct host) = bch ct ++ new /\
    Forall (fun b => is_Some (pBlockHeader b)) new.
Proof.
  unfold request_block_from.
  destruct (bool_decide (host = Hostname)).
  { exists []. by rewrite app_nil_r. }
  pose proof (doRequest_frame host (mkbcHeader reqTypeBlock) (BodyHash hsh)
                true ct) as [Hb _].
  destruct (doRequest host (mkbcHeader reqTypeBlock) (BodyHash hsh) true ct)
    as [[e resp] ct1]. simpl in Hb.
  destruct e as [e|]; simpl.
  { exists []. by rewrite app_nil_r. }
  destruct (pBlockHeader (default zeroBlock resp)) as [h|] eqn:Hh.
  - exists [default zeroBlock resp]. simpl. rewrite Hb. split; [done|].
    constructor; [|constructor]. by rewrite Hh.
  - exists []. by rewrite app_nil_r.
Qed.

Lemma fold_left_bch_extends {A} (f : ChordTransport -> A -> ChordTransport)
  (P : Block -> Prop) :
  (forall ct x, exists new, bch (f ct x) = bch ct ++ new /\ Forall P new) ->
  forall l ct,
    exists new, bch (fold_left f l ct) = bch ct ++ new /\ Forall P new.
Proof.
  intros Hf. induction l as [|x l IH]; intros ct; simpl.
  - exists []. by rewrite app_nil_r.
  - destruct (Hf ct x) as (n1 & H1 & P1).
    destruct (IH (f ct x)) as (n2 & H2 & P2).
    exists (n1 ++ n2). rewrite H2, H1, <- app_assoc. split; [done|].
    by apply Forall_app.
Qed.

(** C7: the blocks [RequestBlocks] sends on the block channel all have a
    header; the reply of a peer that does not have the block, a block
    without header, is never among them. *)
Theorem C7_not_found_never_forwarded hashes ct :
  exists new,
    bch (RequestBlocks hashes ct) = bch ct ++ new /\
    Forall (fun b => is_Some (pBlockHeader b)) new /\
    zeroBlock ∉ new.
Proof.
  assert (H : exists new,
             bch (RequestBlocks hashes ct) = bch ct ++ new /\
             Forall (fun b => is_Some (pBlockHeader b)) new).
  { unfold RequestBlocks. apply fold_left_bch_extends.
    intros ct0 hsh.
    destruct (Lookup (clock ct0) NumSuccessors hsh) as [vns|err].
    - apply (fold_left_bch_extends (request_block_from hsh) _
                 (request_block_from_bch hsh) (UniqueHosts vns) (tick ct0)).
    - exists []. by rewrite app_nil_r. }
  destruct H as (new & Hb & Hall). exists new. split; [done|]. split; [done|].
  intros Hin. rewrite Forall_forall in Hall. apply Hall in Hin.
  by destruct Hin.
Qed.

(** ** The connection pool *)

(** The invariant only looks at the pool, the closed connections and the
    clock, and survives the clock moving on. *)
Lemma pool_inv_mono ct ct' :
  outbound ct' = outbound ct -> closed ct' = closed ct ->
  clock ct <= clock ct' ->
  pool_inv ct -> pool_inv ct'.
Proof.
  intros Ho Hc Hk [Hp Hcl]. unfold pool_inv. rewrite Ho, Hc. split.
  - intros h l Hl. destruct (Hp h l Hl) as [Hnd Hall]. split; [done|].
    eapply Forall_impl; [exact Hall|]. simpl. intros c (? & ? & ?).
    repeat split; [done..|lia].
  - eapply Forall_impl; [exact Hcl|]. simpl. intros c ?. lia.
Qed.

Lemma pooled_mono ct ct' conn :
  outbound ct' = outbound ct -> pooled ct' conn <-> pooled ct conn.
Proof. intros Ho. unfold pooled. by rewrite Ho. Qed.

Lemma pool_inv_empty :
  pool_inv (mkChordTransport ∅ [] [] [] [] 0).
Proof.
  split; [|constructor]. intros h l Hl. simpl in Hl.
  by rewrite lookup_empty in Hl.
Qed.

(** The connection [getConn] hands out is not closed and is no longer in
    the pool. *)
Lemma getConn_conn addr ct conn ct1 :
  pool_inv ct ->
  getConn addr ct = (inl conn, ct1) ->
  (conn ∉ closed ct) /\ closed ct1 = closed ct /\
  ~ pooled ct1 conn /\ conn_id conn < clock ct1 /\ pool_inv ct1.
Proof.
  intros [Hp Hcl] Hget. unfold getConn in Hget.
  destruct (outbound ct !! addr) as [[|c0 rest]|] eqn:Hpool.
  2: {
    injection Hget as <- <-.
    destruct (Hp addr (c0 :: rest) Hpool) as [Hnd Hall].
    apply NoDup_cons in Hnd as [Hnin Hnd].
    apply Forall_cons in Hall as [(Hra & Hnc & Hid) Hall].
    split; [done|]. split; [done|]. split; [|split; [done|]].
    - intros (h & l & Hl & Hin). simpl in Hl.
      destruct (decide (addr = h)) as [<-|Hne].
      + rewrite lookup_insert_eq in Hl. injection Hl as <-. done.
      + rewrite lookup_insert_ne in Hl by done.
        destruct (Hp h l Hl) as [_ Hall'].
        rewrite Forall_forall in Hall'. destruct (Hall' c0 Hin) as (Hra' & _).
        congruence.
    - split; [|done]. intros h l Hl. simpl in Hl.
      destruct (decide (addr = h)) as [<-|Hne].
      + rewrite lookup_insert_eq in Hl. injection Hl as <-. done.
      + rewrite lookup_insert_ne in Hl by done. by apply Hp. }
  all: destruct (Dial (clock ct) addr) as [remote|e]; [|done];
    injection Hget as <- <-; simpl;
    (split; [intros Hin; rewrite Forall_forall in Hcl;
             apply Hcl in Hin; simpl in Hin; lia|]);
    (split; [done|]);
    (split; [intros (h & l & Hl & Hin); simpl in Hl;
             destruct (Hp h l Hl) as [_ Hall];
             rewrite Forall_forall in Hall;
             destruct (Hall _ Hin) as (_ & _ & Hid); simpl in Hid; lia|]);
    (split; [lia|]);
    apply (pool_inv_mono ct); simpl; try done; try lia; by split.
Qed.

Lemma getConn_error addr ct e ct1 :
  pool_inv ct ->
  getConn addr ct = (inr e, ct1) ->
  outbound ct1 = outbound ct /\ closed ct1 = closed ct /\ pool_inv ct1.
Proof.
  intros Hinv Hget. unfold getConn in Hget.
  destruct (outbound ct !! addr) as [[|c0 rest]|]; [|done|];
    (destruct (Dial (clock ct) addr) as [remote|e']; [done|]);
    injection Hget as <- <-; simpl; (split; [done|]); (split; [done|]);
    apply (pool_inv_mono ct); simpl; try done; lia.
Qed.

Lemma close_conn_inv conn ct :
  pool_inv ct -> ~ pooled ct conn -> conn_id conn < clock ct ->
  pool_inv (close_conn conn ct).
Proof.
  intros [Hp Hcl] Hnp Hid. split; simpl.
  - intros h l Hl. destruct (Hp h l Hl) as [Hnd Hall]. split; [done|].
    rewrite Forall_forall in Hall |- *. intros c Hc.
    destruct (Hall c Hc) as (? & ? & ?). repeat split; [done| |done].
    intros [->|Hin]%elem_of_cons; [|done].
    apply Hnp. by exists h, l.
  - by constructor.
Qed.

Lemma returnConn_inv conn ct :
  pool_inv ct -> ~ pooled ct conn -> conn ∉ closed ct ->
  conn_id conn < clock ct ->
  pool_inv (returnConn conn ct).
Proof.
  intros [Hp Hcl] Hnp Hnc Hid.
  pose proof (returnConn_frame conn ct) as (_ & _ & Hc & Hk).
  unfold pool_inv. rewrite Hc, Hk, returnConn_outbound. split; [|done].
  intros h l Hl.
  destruct (decide (RemoteAddr conn = h)) as [<-|Hne].
  - rewrite lookup_insert_eq in Hl. injection Hl as <-.
    destruct (outbound ct !! RemoteAddr conn) as [p|] eqn:Hpool; simpl.
    + destruct (Hp _ p Hpool) as [Hnd Hall]. split.
      * apply NoDup_app. split; [done|]. split; [|apply NoDup_singleton].
        intros c Hc' ->%list_elem_of_singleton. apply Hnp. by eexists _, p.
      * apply Forall_app. split; [done|]. by repeat constructor.
    + split; [apply NoDup_singleton|]. by repeat constructor.
  - rewrite lookup_insert_ne in Hl by done. by apply Hp.
Qed.

(** The connection of a [doRequest] is settled as [conn_settled] says,
    and the pool stays well formed. *)
Lemma doRequest_discipline ct host hdr req w :
  pool_inv ct ->
  pool_inv (doRequest host hdr req w ct).2 /\
  forall conn ct1,
    getConn host (record_request host hdr req ct) = (inl conn, ct1) ->
    (conn ∉ closed ct) /\
    conn_settled ct1 conn (is_error (request_io conn w ct1).1.1)
      (doRequest host hdr req w ct).2.
Proof.
  intros Hinv.
  assert (Hinv0 : pool_inv (record_request host hdr req ct)) by done.
  unfold doRequest.
  destruct (getConn host (record_request host hdr req ct))
    as [[conn|e] ct1] eqn:Hget.
  - destruct (getConn_conn _ _ _ _ Hinv0 Hget)
      as (Hnc & Hcl1 & Hnp & Hid & Hinv1).
    pose proof (request_io_frame conn w ct1) as (Ho & _ & _ & Hc & Hk).
    destruct (request_io conn w ct1) as [[err resp] ct2] eqn:Hio. simpl in *.
    assert (Hinv2 : pool_inv ct2) by (by apply (pool_inv_mono ct1)).
    assert (Hnp2 : ~ pooled ct2 conn) by (by rewrite (pooled_mono ct1)).
    destruct err as [e|]; simpl.
    + split; [apply close_conn_inv; [done..|lia]|].
      intros conn' ct1' [= <- <-]. split; [done|].
      rewrite Hio. unfold conn_settled. simpl.
      split; [by left|]. split; [|done].
      by rewrite (pooled_mono ct2).
    + split; [apply returnConn_inv; [done|done|congruence|lia]|].
      intros conn' ct1' [= <- <-]. split; [done|].
      rewrite Hio. unfold conn_settled. simpl.
      pose proof (returnConn_frame conn ct2) as (_ & _ & -> & _).
      split; [congruence|]. by rewrite returnConn_outbound, Ho.
  - destruct (getConn_error _ _ _ _ Hinv0 Hget) as (_ & _ & Hinv1).
    simpl. split; [done|]. intros conn ct1' [=].
Qed.

Lemma getBlockByType_discipline ct typ host :
  pool_inv ct ->
  pool_inv (getBlockByType typ host ct).2 /\
  forall conn ct1,
    getConn host ct = (inl conn, ct1) ->
    (conn ∉ closed ct) /\
    conn_settled ct1 conn (is_error (block_io conn ct1).1.1)
      (getBlockByType typ host ct).2.
Proof.
  intros Hinv. unfold getBlockByType.
  destruct (getConn host ct) as [[conn|e] ct1] eqn:Hget.
  - destruct (getConn_conn _ _ _ _ Hinv Hget)
      as (Hnc & Hcl1 & Hnp & Hid & Hinv1).
    pose proof (block_io_frame conn ct1) as (Ho & Hc & Hk).
    destruct (block_io conn ct1) as [[err blk] ct2] eqn:Hio. simpl in *.
    assert (Hinv2 : pool_inv ct2) by (by apply (pool_inv_mono ct1)).
    assert (Hnp2 : ~ pooled ct2 conn) by (by rewrite (pooled_mono ct1)).
    destruct err as [e|]; simpl.
    + split; [apply close_conn_inv; [done..|lia]|].
      intros conn' ct1' [= <- <-]. split; [done|].
      rewrite Hio. unfold conn_settled. simpl.
      split; [by left|]. split; [|done].
      by rewrite (pooled_mono ct2).
    + split; [apply returnConn_inv; [done|done|congruence|lia]|].
      intros conn' ct1' [= <- <-]. split; [done|].
      rewrite Hio. unfold conn_settled. simpl.
      pose proof (returnConn_frame conn ct2) as (_ & _ & -> & _).
      split; [congruence|]. by rewrite returnConn_outbound, Ho.
  - destruct (getConn_error _ _ _ _ Hinv Hget) as (_ & _ & Hinv1).
    simpl. split; [done|]. intros conn ct1' [=].
Qed.

(** Broadcasts and pulls keep the pool well formed: from the empty pool
    on, no closed connection is ever idle in it. *)
Lemma broadcast_pool_inv typ hsh v ct :
  pool_inv ct -> pool_inv (broadcast typ hsh v ct).2.
Proof.
  intros Hinv. unfold broadcast.
  assert (Ht : pool_inv (tick ct)).
  { apply (pool_inv_mono ct); simpl; try done. lia. }
  destruct (Lookup (clock ct) NumSuccessors hsh) as [nodes|e]; simpl; [|done].
  unfold broadcast_worker. revert Ht. generalize (tick ct).
  induction (UniqueHosts nodes) as [|h hosts IH]; intros ct0 H0; simpl; [done|].
  apply IH. destruct (bool_decide (h = Hostname)); [done|].
  destruct (doRequest_discipline ct0 h (mkbcHeader typ) v false H0) as [H1 _].
  destruct (doRequest h (mkbcHeader typ) v false ct0) as [[err resp] ct1].
  by destruct err.
Qed.

Lemma RequestBlocks_pool_inv hashes ct :
  pool_inv ct -> pool_inv (RequestBlocks hashes ct).
Proof.
  unfold RequestBlocks. revert ct.
  induction hashes as [|hsh hashes IH]; intros ct Hinv; simpl; [done|].
  apply IH.
  assert (Ht : pool_inv (tick ct)).
  { apply (pool_inv_mono ct); simpl; try done. lia. }
  destruct (Lookup (clock ct) NumSuccessors hsh) as [vns|e]; [|done].
  revert Ht. generalize (tick ct).
  induction (UniqueHosts vns) as [|h hosts IHh]; intros ct0 H0; simpl; [done|].
  apply IHh. unfold request_block_from.
  destruct (bool_decide (h = Hostname)); [done|].
  destruct (doRequest_discipline ct0 h (mkbcHeader reqTypeBlock)
              (BodyHash hsh) true H0) as [H1 _].
  destruct (doRequest h (mkbcHeader reqTypeBlock) (BodyHash hsh) true ct0)
    as [[err resp] ct1].
  destruct err; [done|]. simpl in *.
  by destruct (pBlockHeader (default zeroBlock resp)).
Qed.

(** C4: in [doRequest] and in [getBlockByType], starting from a well
    formed pool, the connection the request runs on is not a closed one;
    when encoding or decoding fails (end of stream included) the
    connection is closed and is not in the pool afterwards, the pool
    being what it was once the connection had been taken from it; when
    the request succeeds the connection is appended to the idle list
    keyed by its remote address.  The pool stays well formed, so that
    no closed connection is ever idle in it. *)
Theorem C4_failed_connection_not_pooled ct host :
  pool_inv ct ->
  (forall hdr req w,
      pool_inv (doRequest host hdr req w ct).2 /\
      forall conn ct1,
        getConn host (record_request host hdr req ct) = (inl conn, ct1) ->
        (conn ∉ closed ct) /\
        conn_settled ct1 conn (is_error (request_io conn w ct1).1.1)
          (doRequest host hdr req w ct).2) /\
  (forall typ,
      pool_inv (getBlockByType typ host ct).2 /\
      forall conn ct1,
        getConn host ct = (inl conn, ct1) ->
        (conn ∉ closed ct) /\
        conn_settled ct1 conn (is_error (block_io conn ct1).1.1)
          (getBlockByType typ host ct).2).
Proof.
  intros Hinv. split.
  - intros hdr req w. by apply doRequest_discipline.
  - intros typ. by apply getBlockByType_discipline.
Qed.

(** ** Further properties of the outbound side *)

(** X12: the idle list of an address is a queue.  Right after
    [returnConn] has put a connection back, [getConn] for its remote
    address takes the oldest idle connection of that address (the
    connection itself when there was none), leaves the others idle in
    their order, and does not dial. *)
Theorem pool_is_fifo conn ct :
  getConn (RemoteAddr conn) (returnConn conn ct)
  = (inl (default conn (head (default [] (outbound ct !! RemoteAddr conn)))),
     set_outbound
       (<[RemoteAddr conn :=
            tail (default [] (outbound ct !! RemoteAddr conn) ++ [conn])]>
          (outbound ct)) ct).
Proof.
  unfold getConn, returnConn.
  destruct (outbound ct !! RemoteAddr conn) as [[|c0 rest]|] eqn:Hp; simpl;
    rewrite lookup_insert_eq; simpl;
    unfold set_outbound; simpl; by rewrite insert_insert_eq.
Qed.

(** The first step of [getConn] when nothing is idle for the address. *)
Lemma getConn_dials addr ct :
  default [] (outbound ct !! addr) = [] ->
  getConn addr ct
  = (match Dial (clock ct) addr with
     | inl remote => inl (mkConn (clock ct) remote)
     | inr e => inr e
     end, tick ct).
Proof.
  unfold getConn.
  destruct (outbound ct !! addr) as [[|c0 rest]|]; simpl; [|done|];
    intros _; by destruct (Dial (clock ct) addr).
Qed.

(** X13: a connection that was dialled for
    [host] goes back to the pool under its remote address.  After a
    successful [doRequest] on a new connection, the connection is idle in
    the list of its remote address; the next [getConn] for [host] takes
    that very connection when the remote address is the string [host],
    and when it is another string finds nothing idle for [host] and
    dials again. *)
Theorem pooled_under_remote_address ct host hdr req w remote :
  default [] (outbound ct !! host) = [] ->
  Dial (clock ct) host = inl remote ->
  (request_io (mkConn (clock ct) remote) w
     (tick (record_request host hdr req ct))).1.1 = None ->
  mkConn (clock ct) remote
    ∈ default [] (outbound (doRequest host hdr req w ct).2 !! remote) /\
  (remote = host ->
   (getConn host (doRequest host hdr req w ct).2).1
   = inl (mkConn (clock ct) remote)) /\
  (remote <> host ->
   outbound (doRequest host hdr req w ct).2 !! host = outbound ct !! host /\
   getConn host (doRequest host hdr req w ct).2
   = (match Dial (clock (doRequest host hdr req w ct).2) host with
      | inl r => inl (mkConn (clock (doRequest host hdr req w ct).2) r)
      | inr e => inr e
      end, tick (doRequest host hdr req w ct).2)).
Proof.
  intros Hidle Hdial Hio. unfold doRequest.
  rewrite (getConn_dials host (record_request host hdr req ct)) by done.
  simpl. rewrite Hdial.
  set (conn := mkConn (clock ct) remote) in *.
  pose proof (request_io_frame conn w (tick (record_request host hdr req ct)))
    as (Ho & _).
  destruct (request_io conn w (tick (record_request host hdr req ct)))
    as [[err resp] ct2]. simpl in Hio, Ho. subst err.
  cbv beta iota zeta. cbn [fst snd].
  rewrite returnConn_outbound, Ho. cbn [outbound record_request tick].
  split; [|split].
  - rewrite lookup_insert_eq. simpl. apply elem_of_app. right. by left.
  - intros ->. unfold getConn. rewrite returnConn_outbound, Ho. simpl.
    rewrite lookup_insert_eq.
    destruct (outbound ct !! host) as [[|c0 rest]|]; simpl in *; done.
  - intros Hne. rewrite lookup_insert_ne by done. split; [done|].
    apply getConn_dials. rewrite returnConn_outbound, Ho. simpl.
    by rewrite lookup_insert_ne.
Qed.

(** X14: an end of stream is not reported.  When the
    exchange of [doRequest] or of [getBlockByType] ends on [io.EOF], the
    caller gets a nil error, as after a success, although the connection
    has been closed and is not in the pool; any other error is returned
    as it is. *)
Theorem eof_reported_as_success ct host conn ct1 :
  pool_inv ct ->
  getConn host ct = (inl conn, ct1) ->
  (forall hdr req w e,
      (request_io conn w (record_request host hdr req ct1)).1.1 = Some e ->
      (doRequest host hdr req w ct).1.1 = drop_EOF e /\
      (conn ∈ closed (doRequest host hdr req w ct).2) /\
      ~ pooled (doRequest host hdr req w ct).2 conn) /\
  (forall typ e,
      (block_io conn ct1).1.1 = Some e ->
      (getBlockByType typ host ct).1.2 = drop_EOF e /\
      (conn ∈ closed (getBlockByType typ host ct).2) /\
      ~ pooled (getBlockByType typ host ct).2 conn) /\
  drop_EOF io_EOF = None.
Proof.
  intros Hinv Hget. split; [|split; [|done]].
  - intros hdr req w e Hio.
    assert (Hget0 : getConn host (record_request host hdr req ct)
                    = (inl conn, record_request host hdr req ct1)).
    { unfold getConn in *. simpl.
      destruct (outbound ct !! host) as [[|c0 rest]|];
        try (destruct (Dial (clock ct) host)); try done;
        by injection Hget as <- <-. }
    destruct (doRequest_discipline ct host hdr req w Hinv) as [_ Hd].
    destruct (Hd _ _ Hget0) as [_ Hs]. rewrite Hio in Hs.
    destruct Hs as (Hc & Hnp & _).
    split; [|done].
    unfold doRequest. rewrite Hget0.
    destruct (request_io conn w (record_request host hdr req ct1))
      as [[err resp] ct2]. simpl in Hio. by subst err.
  - intros typ e Hio.
    destruct (getBlockByType_discipline ct typ host Hinv) as [_ Hd].
    destruct (Hd _ _ Hget) as [_ Hs]. rewrite Hio in Hs.
    destruct Hs as (Hc & Hnp & _).
    split; [|done].
    unfold getBlockByType. rewrite Hget.
    destruct (block_io conn ct1) as [[err blk] ct2]. simpl in Hio.
    by subst err.
Qed.

(** ** Broadcasts and pulls as a whole *)

(** [ct'] comes from [ct] by requests that all satisfy [Q] and by blocks
    sent on the block channel, not more blocks than requests. *)
Definition extends_by (Q : string * bcHeader * RequestBody -> Prop)
  (ct ct' : ChordTransport) : Prop :=
  exists reqs new,
    issued ct' = issued ct ++ reqs /\
    bch ct' = bch ct ++ new /\
    Forall Q reqs /\
    length new <= length reqs.

Lemma extends_by_refl Q ct ct' :
  issued ct' = issued ct -> bch ct' = bch ct -> extends_by Q ct ct'.
Proof.
  intros Hi Hb. exists [], []. rewrite Hi, Hb, !app_nil_r.
  repeat split; [constructor|done].
Qed.

Lemma extends_by_trans Q ct1 ct2 ct3 :
  extends_by Q ct1 ct2 -> extends_by Q ct2 ct3 -> extends_by Q ct1 ct3.
Proof.
  intros (r1 & n1 & Hi1 & Hb1 & Q1 & L1) (r2 & n2 & Hi2 & Hb2 & Q2 & L2).
  exists (r1 ++ r2), (n1 ++ n2).
  rewrite Hi2, Hi1, Hb2, Hb1, <- !app_assoc.
  repeat split; [by apply Forall_app|]. rewrite !length_app. lia.
Qed.

Lemma extends_by_fold {A} Q (f : ChordTransport -> A -> ChordTransport) l :
  (forall ct x, x ∈ l -> extends_by Q ct (f ct x)) ->
  forall ct, extends_by Q ct (fold_left f l ct).
Proof.
  induction l as [|x l IH]; intros Hf ct; simpl.
  - by apply extends_by_refl.
  - eapply extends_by_trans; [apply Hf; by left|].
    apply IH. intros ct0 y Hy. apply Hf. by right.
Qed.

Lemma request_block_from_extends hsh ct host :
  extends_by
    (fun r => r.1.1 <> Hostname /\ r.1.2 = mkbcHeader reqTypeBlock /\
              r.2 = BodyHash hsh)
    ct (request_block_from hsh ct host).
Proof.
  unfold request_block_from.
  destruct (bool_decide_reflect (host = Hostname)) as [Heq|Hne].
  { by apply extends_by_refl. }
  pose proof (doRequest_frame host (mkbcHeader reqTypeBlock) (BodyHash hsh)
                true ct) as [Hb Hi].
  destruct (doRequest host (mkbcHeader reqTypeBlock) (BodyHash hsh) true ct)
    as [[e resp] ct1]. simpl in Hb, Hi.
  assert (HQ : Forall
                 (fun r => r.1.1 <> Hostname /\
                           r.1.2 = mkbcHeader reqTypeBlock /\
                           r.2 = BodyHash hsh)
                 [(host, mkbcHeader reqTypeBlock, BodyHash hsh)])
    by (by repeat constructor).
  destruct e as [e|]; simpl.
  { exists [(host, mkbcHeader reqTypeBlock, BodyHash hsh)], [].
    rewrite app_nil_r. repeat split; try done. simpl. lia. }
  destruct (pBlockHeader (default zeroBlock resp)).
  - exists [(host, mkbcHeader reqTypeBlock, BodyHash hsh)],
      [default zeroBlock resp].
    simpl. rewrite Hb. by repeat split.
  - exists [(host, mkbcHeader reqTypeBlock, BodyHash hsh)], [].
    rewrite app_nil_r. repeat split; try done. simpl. lia.
Qed.

(** X15: every request [RequestBlocks] issues is
    a block-by-hash request (type 45) for one of the hashes it was given,
    to a host other than the local one, and it sends at most one block on
    the block channel per request issued. *)
Theorem pulls_ask_remote_hosts_only hashes ct :
  extends_by
    (fun r => r.1.1 <> Hostname /\ T r.1.2 = 45%Z /\
              exists hsh, hsh ∈ hashes /\ r.2 = BodyHash hsh)
    ct (RequestBlocks hashes ct).
Proof.
  unfold RequestBlocks. apply extends_by_fold. intros ct0 hsh Hin.
  destruct (Lookup (clock ct0) NumSuccessors hsh) as [vns|err].
  2: { by apply extends_by_refl. }
  apply (extends_by_trans _ ct0 (tick ct0)); [by apply extends_by_refl|].
  apply extends_by_fold. intros ct1 host _.
  destruct (request_block_from_extends hsh ct1 host)
    as (reqs & new & Hi & Hb & HQ & Hl).
  exists reqs, new. repeat split; try done.
  eapply Forall_impl; [exact HQ|]. simpl.
  intros r (Hh & Hhd & Hbody). split; [done|]. split; [by rewrite Hhd|].
  by exists hsh.
Qed.

Lemma request_block_fold_issued hsh hosts :
  forall ct,
    issued (fold_left (request_block_from hsh) hosts ct)
    = issued ct ++
      ((fun h => (h, mkbcHeader reqTypeBlock, BodyHash hsh)) <$>
         filter (fun host => host <> Hostname) hosts).
Proof.
  induction hosts as [|h hosts IH]; intros ct; simpl.
  - by rewrite app_nil_r.
  - rewrite IH. unfold request_block_from.
    destruct (bool_decide_reflect (h = Hostname)) as [Heq|Hne].
    + by rewrite filter_cons_False by (intros H; by apply H).
    + rewrite filter_cons_True by done.
      pose proof (doRequest_frame h (mkbcHeader reqTypeBlock) (BodyHash hsh)
                    true ct) as [_ Hi].
      destruct (doRequest h (mkbcHeader reqTypeBlock) (BodyHash hsh) true ct)
        as [[err resp] ct1]. simpl in Hi.
      rewrite fmap_cons.
      destruct err; simpl; [by rewrite Hi, <- app_assoc|].
      destruct (pBlockHeader (default zeroBlock resp)); simpl;
        by rewrite Hi, <- app_assoc.
Qed.

(** X16: a pull goes where a broadcast goes.  For one
    hash whose lookup succeeds, [RequestBlocks] issues one block-by-hash
    request to each distinct host of the replica set other than the
    local host, whether or not earlier hosts answered or failed. *)
Theorem pull_once_per_host hsh vns ct :
  Lookup (clock ct) NumSuccessors hsh = inl vns ->
  issued (RequestBlocks [hsh] ct)
  = issued ct ++
    ((fun h => (h, mkbcHeader reqTypeBlock, BodyHash hsh)) <$>
       broadcast_hosts vns) /\
  NoDup (broadcast_hosts vns) /\
  Hostname ∉ broadcast_hosts vns.
Proof.
  intros Hl. unfold RequestBlocks. simpl. rewrite Hl.
  destruct (broadcast_hosts_spec vns) as [Hnd Hin].
  split; [by rewrite request_block_fold_issued|]. split; [done|].
  intros H. apply Hin in H as [H _]. by apply H.
Qed.

Lemma broadcast_worker_log typ v hosts :
  forall ct,
    bch (fold_left
           (fun ct host =>
              if bool_decide (host = Hostname) then ct
              else
                let '((err, _), ct) := doRequest host (mkbcHeader typ) v false ct in
                match err with
                | Some e => log_error e ct
                | None => ct
                end) hosts ct) = bch ct /\
    exists errs,
      errlog (fold_left
                (fun ct host =>
                   if bool_decide (host = Hostname) then ct
                   else
                     let '((err, _), ct) := doRequest host (mkbcHeader typ) v false ct in
                     match err with
                     | Some e => log_error e ct
                     | None => ct
                     end) hosts ct) = errlog ct ++ errs /\
      length errs <= length (filter (fun host => host <> Hostname) hosts).
Proof.
  assert (Hdr : forall host hdr req w ct,
             errlog (doRequest host hdr req w ct).2 = errlog ct).
  { intros host hdr req w ct. unfold doRequest, getConn.
    destruct (outbound (record_request host hdr req ct) !! host)
      as [[|c0 rest]|]; try (destruct (Dial _ host)); simpl; try done.
    all: unfold request_io, encode, decode; simpl;
      repeat (match goal with
              | |- context [Encode ?n ?c] => destruct (Encode n c); simpl
              | |- context [DecodeBlock ?n ?c] => destruct (DecodeBlock n c) as [? []]; simpl
              | |- context [if ?b then _ else _] => destruct b; simpl
              end); try done;
      unfold returnConn; simpl;
      repeat (match goal with
              | |- context [match ?m !! ?k with _ => _ end] => destruct (m !! k); simpl
              end); done. }
  induction hosts as [|h hosts IH]; intros ct; simpl.
  - split; [done|]. exists []. by rewrite app_nil_r.
  - destruct (bool_decide_reflect (h = Hostname)) as [Heq|Hne].
    + rewrite filter_cons_False by (intros H; by apply H). apply IH.
    + rewrite filter_cons_True by done.
      pose proof (doRequest_frame h (mkbcHeader typ) v false ct) as [Hb _].
      pose proof (Hdr h (mkbcHeader typ) v false ct) as He.
      destruct (doRequest h (mkbcHeader typ) v false ct) as [[err resp] ct1].
      simpl in Hb, He.
      destruct err as [e|].
      * destruct (IH (log_error e ct1)) as [Hb2 (errs & He2 & Hl)].
        split; [by rewrite Hb2|].
        exists (e :: errs). rewrite He2. simpl. rewrite He, <- app_assoc.
        split; [done|]. simpl. lia.
      * destruct (IH ct1) as [Hb2 (errs & He2 & Hl)].
        split; [by rewrite Hb2, Hb|].
        exists errs. rewrite He2, He. split; [done|]. simpl. lia.
Qed.

(** X17: [broadcast] reports the lookup only.  When
    the lookup fails its error is returned and nothing else happens (no
    request, the pool untouched); when it succeeds the result is nil
    whatever becomes of the requests: their errors are only logged, at
    most one per host requested, and nothing is sent on the block
    channel. *)
Theorem broadcast_fire_and_forget typ hsh v ct :
  (forall e,
      Lookup (clock ct) NumSuccessors hsh = inr e ->
      broadcast typ hsh v ct = (Some e, tick ct)) /\
  (forall nodes,
      Lookup (clock ct) NumSuccessors hsh = inl nodes ->
      (broadcast typ hsh v ct).1 = None /\
      bch (broadcast typ hsh v ct).2 = bch ct /\
      exists errs,
        errlog (broadcast typ hsh v ct).2 = errlog ct ++ errs /\
        length errs <= length (broadcast_hosts nodes)).
Proof.
  unfold broadcast. split.
  - intros e ->. done.
  - intros nodes ->. simpl. split; [done|].
    unfold broadcast_worker, broadcast_hosts.
    destruct (broadcast_worker_log typ v (UniqueHosts nodes) (tick ct))
      as [Hb He].
    split; [by rewrite Hb|]. exact He.
Qed.

(** *** All the operations together *)

(** The operations of the outbound side. *)
Inductive Operation : Type :=
  | OpDoRequest (host : string) (hdr : bcHeader) (req : RequestBody) (w : bool)
  | OpGetBlockByType (typ : Z) (host : string)
  | OpBroadcast (typ : Z) (hsh : bytes) (v : RequestBody)
  | OpRequestBlocks (hashes : list bytes).

Definition run_operation (ct : ChordTransport) (op : Operation)
  : ChordTransport :=
  match op with
  | OpDoRequest host hdr req w => (doRequest host hdr req w ct).2
  | OpGetBlockByType typ host => (getBlockByType typ host ct).2
  | OpBroadcast typ hsh v => (broadcast typ hsh v ct).2
  | OpRequestBlocks hashes => RequestBlocks hashes ct
  end.

(** [NewChordTransport]: no connection yet. *)
Definition NewChordTransport : ChordTransport :=
  mkChordTransport ∅ [] [] [] [] 0.

(** X18: starting from [NewChordTransport], after
    any sequence of requests, block queries, broadcasts and pulls, run
    one after the other, the pool is well formed: no idle connection has
    been closed, every idle connection sits in the list of its own remote
    address, once; so [getConn] never hands out a closed connection. *)
Theorem pool_never_holds_closed ops :
  pool_inv (fold_left run_operation ops NewChordTransport) /\
  (forall host,
      match (getConn host (fold_left run_operation ops NewChordTransport)).1 with
      | inl conn =>
          conn ∉ closed (fold_left run_operation ops NewChordTransport)
      | inr _ => True
      end).
Proof.
  assert (Hinv : pool_inv (fold_left run_operation ops NewChordTransport)).
  { generalize pool_inv_empty. unfold NewChordTransport.
    generalize (mkChordTransport ∅ [] [] [] [] 0).
    induction ops as [|op ops IH]; intros ct Hct; simpl; [done|].
    apply IH. destruct op as [host hdr req w|typ host|typ hsh v|hashes]; simpl.
    - by apply doRequest_discipline.
    - by apply getBlockByType_discipline.
    - by apply broadcast_pool_inv.
    - by apply RequestBlocks_pool_inv. }
  split; [done|]. intros host.
  destruct (getConn host (fold_left run_operation ops NewChordTransport))
    as [[conn|e] ct1] eqn:Hget; simpl; [|done].
  by destruct (getConn_conn _ _ _ _ Hinv Hget).
Qed.

(** X19: [UniqueHosts] depends on the set of hosts only.
    It returns no more hosts than it was given nodes, nothing for no
    node, and the same hosts (up to the order of the map iteration) for
    two slices of nodes with the same hosts, however often and in
    whatever order they occur. *)
Theorem unique_hosts_bounds vl :
  length (UniqueHosts vl) <= length vl /\
  UniqueHosts [] = [] /\
  (forall vl',
      (forall h, (exists v, v ∈ vl /\ Host v = h) <->
                 (exists v, v ∈ vl' /\ Host v = h)) ->
      UniqueHosts vl ≡ₚ UniqueHosts vl').
Proof.
  destruct (UniqueHosts_spec vl) as [Hnd Hin]. split; [|split].
  - rewrite <- (length_fmap Host vl). apply submseteq_length.
    apply NoDup_submseteq; [done|]. intros h Hh.
    apply Hin in Hh as (v & Hv & <-). by apply list_elem_of_fmap_2.
  - destruct (UniqueHosts_spec []) as [_ Hnil].
    destruct (UniqueHosts []) as [|h l] eqn:Hu; [done|].
    exfalso. assert (Hh : h ∈ h :: l) by (by left).
    apply Hnil in Hh as (v & Hv & _). by apply elem_of_nil in Hv.
  - intros vl' Hsame. destruct (UniqueHosts_spec vl') as [Hnd' Hin'].
    apply NoDup_Permutation; [done..|].
    intros h. by rewrite Hin, Hin', Hsame.
Qed.

End Transport.

(** ** The transport on sample inputs *)

Module TransportSample.

Definition Hostname : string := "10.0.0.1:9000".
Definition hostA : string := "10.0.0.2:9000".
Definition hostB : string := "10.0.0.3:9000".

(** Three virtual nodes on two remote hosts, and one on the local host. *)
Definition replicas : VnodeSlice :=
  [mkVnode (Some [1%Z]) hostA; mkVnode (Some [2%Z]) hostA;
   mkVnode (Some [3%Z]) hostB; mkVnode (Some [4%Z]) Hostname].

Definition Lookup (now n : nat) (key : bytes) : VnodeSlice + error :=
  inl replicas.

Definition Dial (now : nat) (addr : string) : string + error := inl addr.

(** Writing to [hostB] fails; [hostA] answers. *)
Definition Encode (now : nat) (conn : Conn) : option error :=
  if bool_decide (RemoteAddr conn = hostB) then Some (other_error 32) else None.

(** [hostA] does not hold the block asked for before time 10, and
    answers with a block afterwards. *)
Definition DecodeBlock (now : nat) (conn : Conn) : Block * option error :=
  if now <? 10 then (zeroBlock, None) else (EngineSample.stray, None).

Definition range_keys (m : gmap string bool) : list string :=
  (map_to_list m).*1.

Definition start : ChordTransport := mkChordTransport ∅ [] [] [] [] 0.

Definition block_request : bcHeader * RequestBody :=
  (mkbcHeader reqTypeBlockBroadcast, BodyBlock EngineSample.stray).

Definition NumSuccessors : nat := 3.

Definition broadcast := broadcast Hostname NumSuccessors Lookup Dial Encode
  DecodeBlock range_keys.

Definition RequestBlocks := RequestBlocks Hostname NumSuccessors Lookup Dial
  Encode DecodeBlock range_keys.

Definition doRequest := doRequest Dial Encode DecodeBlock.

End TransportSample.

Example broadcast_sample_two_requests :
  length (issued (TransportSample.broadcast reqTypeBlockBroadcast (Some [9%Z])
                    (BodyBlock EngineSample.stray) TransportSample.start).2) = 2.
Proof. vm_compute. reflexivity. Qed.

(** The failed connection to [hostB] is closed, the one to [hostA] is
    idle in the pool. *)
Example broadcast_sample_pool :
  let ct := (TransportSample.broadcast reqTypeBlockBroadcast (Some [9%Z])
               (BodyBlock EngineSample.stray) TransportSample.start).2 in
  closed ct = [mkConn 1 TransportSample.hostB] /\
  outbound ct !! TransportSample.hostA = Some [mkConn 3 TransportSample.hostA] /\
  outbound ct !! TransportSample.hostB = None.
Proof. vm_compute. done. Qed.

(** Two pulls: the first answer of [hostA] is the block without header
    and is dropped, the second is a block and is forwarded. *)
Example RequestBlocks_sample :
  bch (TransportSample.RequestBlocks [Some [5%Z]; Some [6%Z]]
         TransportSample.start) = [EngineSample.stray].
Proof. vm_compute. reflexivity. Qed.

Lemma C3_broadcast_once_per_host_witness :
  issued (TransportSample.broadcast reqTypeBlockBroadcast (Some [9%Z])
            (BodyBlock EngineSample.stray) TransportSample.start).2 =
    issued TransportSample.start ++
    ((fun h => (h, mkbcHeader reqTypeBlockBroadcast,
                BodyBlock EngineSample.stray)) <$>
       broadcast_hosts TransportSample.Hostname TransportSample.range_keys
         TransportSample.replicas) /\
  NoDup (broadcast_hosts TransportSample.Hostname TransportSample.range_keys
           TransportSample.replicas) /\
  (forall h,
      h ∈ broadcast_hosts TransportSample.Hostname TransportSample.range_keys
            TransportSample.replicas <->
      h <> TransportSample.Hostname /\
      exists vn, vn ∈ TransportSample.replicas /\ Host vn = h) /\
  TransportSample.Hostname ∉
    broadcast_hosts TransportSample.Hostname TransportSample.range_keys
      TransportSample.replicas.
Proof.
  apply (C3_broadcast_once_per_host TransportSample.Hostname
           TransportSample.NumSuccessors TransportSample.Lookup
           TransportSample.Dial TransportSample.Encode
           TransportSample.DecodeBlock TransportSample.range_keys).
  - intros m. reflexivity.
  - reflexivity.
Defined.

Lemma C4_failed_connection_not_pooled_witness :
  let conn := mkConn 0 TransportSample.hostB in
  let ct' := (TransportSample.doRequest TransportSample.hostB
                (mkbcHeader reqTypeBlockBroadcast)
                (BodyBlock EngineSample.stray) false TransportSample.start).2 in
  pool_inv ct' /\ (conn ∉ closed TransportSample.start) /\
  (conn ∈ closed ct') /\ ~ pooled ct' conn.
Proof.
  destruct (C4_failed_connection_not_pooled TransportSample.Dial
              TransportSample.Encode TransportSample.DecodeBlock
              TransportSample.start TransportSample.hostB pool_inv_empty)
    as [H _].
  destruct (H (mkbcHeader reqTypeBlockBroadcast)
              (BodyBlock EngineSample.stray) false) as [Hinv Hc].
  destruct (Hc (mkConn 0 TransportSample.hostB)
              (tick (record_request TransportSample.hostB
                       (mkbcHeader reqTypeBlockBroadcast)
                       (BodyBlock EngineSample.stray) TransportSample.start))
              eq_refl) as [Hnc (Hcl & Hnp & _)].
  split; [exact Hinv|]. split; [exact Hnc|]. split; [exact Hcl|exact Hnp].
Defined.

(** ** Further runs of the transport on the sample *)

Module PoolSample.

(** A peer known by name: the connection reports its numeric address. *)
Definition host : string := "node-b:9000".
Definition remote : string := "10.0.0.3:9000".

Definition Dial (now : nat) (addr : string) : string + error := inl remote.

Definition Encode (now : nat) (conn : Conn) : option error := None.

(** A peer that hangs up at once. *)
Definition EncodeEOF (now : nat) (conn : Conn) : option error := Some io_EOF.

Definition hdr : bcHeader := mkbcHeader reqTypeBlockBroadcast.
Definition req : RequestBody := BodyBlock EngineSample.stray.

Definition after_request : ChordTransport :=
  (doRequest Dial Encode TransportSample.DecodeBlock host hdr req false
     TransportSample.start).2.

Definition after_eof : ChordTransport * ChordTransport :=
  ((doRequest Dial EncodeEOF TransportSample.DecodeBlock host hdr req false
      TransportSample.start).2,
   (getBlockByType Dial EncodeEOF TransportSample.DecodeBlock reqTypeLastBlock
      host TransportSample.start).2).

End PoolSample.

Lemma pooled_under_remote_address_witness :
  mkConn 0 PoolSample.remote
    ∈ default [] (outbound PoolSample.after_request !! PoolSample.remote) /\
  (PoolSample.remote = PoolSample.host ->
   (getConn PoolSample.Dial PoolSample.host PoolSample.after_request).1
   = inl (mkConn 0 PoolSample.remote)) /\
  (PoolSample.remote <> PoolSample.host ->
   outbound PoolSample.after_request !! PoolSample.host
   = outbound TransportSample.start !! PoolSample.host /\
   getConn PoolSample.Dial PoolSample.host PoolSample.after_request
   = (match PoolSample.Dial (clock PoolSample.after_request) PoolSample.host with
      | inl r => inl (mkConn (clock PoolSample.after_request) r)
      | inr e => inr e
      end, tick PoolSample.after_request)).
Proof.
  apply (pooled_under_remote_address PoolSample.Dial PoolSample.Encode
           TransportSample.DecodeBlock TransportSample.start PoolSample.host
           PoolSample.hdr PoolSample.req false PoolSample.remote);
    reflexivity.
Defined.

Lemma eof_reported_as_success_witness :
  ((doRequest PoolSample.Dial PoolSample.EncodeEOF TransportSample.DecodeBlock
      PoolSample.host PoolSample.hdr PoolSample.req false
      TransportSample.start).1.1 = None /\
   (mkConn 0 PoolSample.remote ∈ closed PoolSample.after_eof.1) /\
   ~ pooled PoolSample.after_eof.1 (mkConn 0 PoolSample.remote)) /\
  ((getBlockByType PoolSample.Dial PoolSample.EncodeEOF
      TransportSample.DecodeBlock reqTypeLastBlock PoolSample.host
      TransportSample.start).1.2 = None /\
   (mkConn 0 PoolSample.remote ∈ closed PoolSample.after_eof.2) /\
   ~ pooled PoolSample.after_eof.2 (mkConn 0 PoolSample.remote)).
Proof.
  destruct (eof_reported_as_success PoolSample.Dial PoolSample.EncodeEOF
              TransportSample.DecodeBlock TransportSample.start PoolSample.host
              (mkConn 0 PoolSample.remote) (tick TransportSample.start)
              pool_inv_empty eq_refl) as (H1 & H2 & _).
  split.
  - exact (H1 PoolSample.hdr PoolSample.req false io_EOF eq_refl).
  - exact (H2 reqTypeLastBlock io_EOF eq_refl).
Defined.

Lemma pull_once_per_host_witness :
  issued (TransportSample.RequestBlocks [Some [5%Z]] TransportSample.start)
  = issued TransportSample.start ++
    ((fun h => (h, mkbcHeader reqTypeBlock, BodyHash (Some [5%Z]))) <$>
       broadcast_hosts TransportSample.Hostname TransportSample.range_keys
         TransportSample.replicas) /\
  NoDup (broadcast_hosts TransportSample.Hostname TransportSample.range_keys
           TransportSample.replicas) /\
  TransportSample.Hostname ∉
    broadcast_hosts TransportSample.Hostname TransportSample.range_keys
      TransportSample.replicas.
Proof.
  apply (pull_once_per_host TransportSample.Hostname
           TransportSample.NumSuccessors TransportSample.Lookup
           TransportSample.Dial TransportSample.Encode
           TransportSample.DecodeBlock TransportSample.range_keys).
  - intros m. reflexivity.
  - reflexivity.
Defined.

Lemma unique_hosts_bounds_witness :
  length (UniqueHosts TransportSample.range_keys TransportSample.replicas)
    <= length TransportSample.replicas /\
  UniqueHosts TransportSample.range_keys [] = [] /\
  (forall vl',
      (forall h, (exists v, v ∈ TransportSample.replicas /\ Host v = h) <->
                 (exists v, v ∈ vl' /\ Host v = h)) ->
      UniqueHosts TransportSample.range_keys TransportSample.replicas
        ≡ₚ UniqueHosts TransportSample.range_keys vl').
Proof.
  apply (unique_hosts_bounds TransportSample.range_keys).
  intros m. reflexivity.
Defined.
